(** * ovis_control: the Kinova hardware interface of the Ovis arm

    A shallow embedding of [src/ovis_control/src/ovis_control.cpp]
    (class [ovis_control::OvisHWInterface]) and the properties of its
    lifecycle callbacks and of its cyclic [read]/[write] transfer.

    - IEEE 754 values are [spec_float]s of the Standard Library: a C++
      [double] is a binary64 value (precision 53, emax 1024), a C++ [float]
      a binary32 value (precision 24, emax 128).
    - The object is a record of its data members; the vendor library
      (sessions that were opened, closed, lost; commands that were sent)
      is a second record threaded through every call.
    - What the vendor library answers ([new KinovaComm], [getJointAngles],
      [setJointAngles]) is an argument of the method that asks.
    - A logging statement matters for the logger it reads: [logger()]
      returns a reference to a logger that is destroyed by then, and the
      methods that log through it have no defined behaviour from there. *)

From Stdlib Require Import ZArith Bool.
From Stdlib.Floats Require Import SpecFloat PrimFloat FloatOps.
From stdpp Require Import base tactics option list strings.

Local Open Scope Z_scope.

(** ** IEEE 754 numbers *)

Module IEEE.

(** A [spec_float] has one NaN: the payload, the sign and the signalling
    bit of a NaN are not represented, and a NaN of the model stands for
    any of them. Two values of the model that are equal are the same
    number; they are the same bits when they are not NaN. *)
Definition double : Type := spec_float.
Definition float : Type := spec_float.

Definition prec64 : Z := 53.
Definition emax64 : Z := 1024.
Definition prec32 : Z := 24.
Definition emax32 : Z := 128.

(** [std::numeric_limits<double>::quiet_NaN()] *)
Definition quiet_NaN : double := S754_nan.

Definition is_nan (x : spec_float) : bool :=
  match x with S754_nan => true | _ => false end.

(** Conversion between formats, rounding to nearest, ties to even: zeros,
    infinities and NaN are kept, a finite number is rounded to the target
    format (and becomes an infinity when it is too large for it). *)
Definition convert (prec emax : Z) (x : spec_float) : spec_float :=
  match x with
  | S754_finite s m e =>
      binary_normalize prec emax (cond_Zopp s (Zpos m)) e s
  | _ => x
  end.

(** [(float)d] *)
Definition double_to_float (d : double) : float := convert prec32 emax32 d.

(** [(double)f] *)
Definition float_to_double (f : float) : double := convert prec64 emax64 f.

Definition valid_double (d : double) : bool := valid_binary prec64 emax64 d.
Definition valid_float (f : float) : bool := valid_binary prec32 emax32 f.

End IEEE.
Export IEEE.

(** ** Results of a call *)

Inductive exception :=
  | out_of_range                          (* std::out_of_range of vector::at *)
  | KinovaCommException (what : string).  (* kinova::KinovaCommException *)

(** A call returns a value, lets an exception escape, or has no defined
    behaviour (a null handle is dereferenced). *)
Inductive outcome (A : Type) :=
  | Returns (a : A)
  | Throws (e : exception)
  | Undefined.
Arguments Returns {A} a.
Arguments Throws {A} e.
Arguments Undefined {A}.

Definition bind {A B} (x : outcome A) (k : A -> outcome B) : outcome B :=
  match x with
  | Returns a => k a
  | Throws e => Throws e
  | Undefined => Undefined
  end.

Notation "x <- c ;; k" := (bind c (fun x => k))
  (at level 100, c at next level, right associativity).

(** [v.at(i)] of a [std::vector]: bounds-checked. *)
Definition at_ {A} (v : list A) (i : nat) : outcome A :=
  match v !! i with
  | Some x => Returns x
  | None => Throws out_of_range
  end.

(** [v.at(i) = x] *)
Definition at_put {A} (v : list A) (i : nat) (x : A) : outcome (list A) :=
  if decide (i < length v)%nat then Returns (<[i:=x]> v) else Throws out_of_range.

(** [v.resize(n, x)]: keeps the first [n] elements and appends copies of
    [x] up to length [n]. *)
Definition resize {A} (v : list A) (n : nat) (x : A) : list A :=
  take n v ++ replicate (n - length v) x.

(** ** The framework's types (hardware_interface, rclcpp_lifecycle) *)

Module hardware_interface.

Inductive CallbackReturn := SUCCESS | FAILURE | ERROR.

Inductive return_type := OK | ERROR_.

Record ComponentInfo := { name : string }.

Record HardwareInfo := { joints : list ComponentInfo }.

(** [hardware_interface::HW_IF_POSITION] *)
Definition HW_IF_POSITION : string := "position".

(** The two vectors of the object a handle can point into. *)
Inductive buffer := hw_states | hw_commands.

(** [&hw_states_[i]], [&hw_commands_[i]]: the pair stands for the address
    of element [slot_index] of the vector while that index is within the
    vector. Past the end the source forms no address that may be used, and
    the pair has nothing behind it ([get_value] below is [None]). *)
Record slot := { slot_buffer : buffer; slot_index : nat }.

(** StateInterface and CommandInterface: joint name, interface name and
    the address of the value. *)
Record Handle :=
  { prefix_name : string; interface_name : string; value_ptr : slot }.

Definition StateInterface := Handle.
Definition CommandInterface := Handle.

End hardware_interface.
Export hardware_interface.

(** ** The vendor library (kinova) *)

Module kinova.

(** [KinovaAngles]: one [float] per actuator, read by name in the log
    statements of [read] and [write] and by position in their loops. *)
Record KinovaAngles := {
  Actuator1 : float; Actuator2 : float; Actuator3 : float;
  Actuator4 : float; Actuator5 : float; Actuator6 : float }.

Definition slots (a : KinovaAngles) : list float :=
  [Actuator1 a; Actuator2 a; Actuator3 a; Actuator4 a; Actuator5 a; Actuator6 a].

(** Modelled from the spec: [KinovaAngles::operator[]] is declared in a
    header that is not among the sources. The record is "indexed both by
    name and by position", six slots in actuator order; an index past the
    sixth slot has no defined behaviour here. *)
Definition index (a : KinovaAngles) (i : nat) : outcome float :=
  match slots a !! i with
  | Some x => Returns x
  | None => Undefined
  end.

(** [angles[i] = x] *)
Definition index_put (a : KinovaAngles) (i : nat) (x : float) : outcome KinovaAngles :=
  match i with
  | 0%nat => Returns {| Actuator1 := x; Actuator2 := Actuator2 a; Actuator3 := Actuator3 a;
                    Actuator4 := Actuator4 a; Actuator5 := Actuator5 a; Actuator6 := Actuator6 a |}
  | 1%nat => Returns {| Actuator1 := Actuator1 a; Actuator2 := x; Actuator3 := Actuator3 a;
                    Actuator4 := Actuator4 a; Actuator5 := Actuator5 a; Actuator6 := Actuator6 a |}
  | 2%nat => Returns {| Actuator1 := Actuator1 a; Actuator2 := Actuator2 a; Actuator3 := x;
                    Actuator4 := Actuator4 a; Actuator5 := Actuator5 a; Actuator6 := Actuator6 a |}
  | 3%nat => Returns {| Actuator1 := Actuator1 a; Actuator2 := Actuator2 a; Actuator3 := Actuator3 a;
                    Actuator4 := x; Actuator5 := Actuator5 a; Actuator6 := Actuator6 a |}
  | 4%nat => Returns {| Actuator1 := Actuator1 a; Actuator2 := Actuator2 a; Actuator3 := Actuator3 a;
                    Actuator4 := Actuator4 a; Actuator5 := x; Actuator6 := Actuator6 a |}
  | 5%nat => Returns {| Actuator1 := Actuator1 a; Actuator2 := Actuator2 a; Actuator3 := Actuator3 a;
                    Actuator4 := Actuator4 a; Actuator5 := Actuator5 a; Actuator6 := x |}
  | _ => Undefined
  end.

(** A [KinovaComm] object, named by the order in which it was created. *)
Definition KinovaComm := nat.

(** The library's side of the process. [created] counts the sessions
    constructed so far; [lost] are the sessions that are still open and
    that no pointer refers to any more; [closed] are the sessions that
    were deleted; [sent] are the records given to [setJointAngles], the
    oldest first. *)
Record Library := {
  created : nat;
  lost : list KinovaComm;
  closed : list KinovaComm;
  sent : list (KinovaComm * KinovaAngles) }.

(** [new KinovaComm(mutex, info)] *)
Inductive open_answer := opened | open_throws (what : string).

(** [comm->getJointAngles(angles)] *)
Inductive get_answer := got (angles : KinovaAngles) | get_throws (what : string).

(** [comm->setJointAngles(angles)] *)
Inductive set_answer := accepted | set_throws (what : string).

End kinova.
Export kinova.

(** ** Logging (rclcpp) *)

Module rclcpp.

(** A [rclcpp::Logger] as a logging statement finds it: the object it
    reads is alive, or its lifetime has ended. *)
Inductive Logger := alive | destroyed.

(** [rclcpp::get_logger(name)] returns a logger by value: as the argument
    of a logging statement the temporary lives until the statement ends. *)
Definition get_logger : Logger := alive.

(** A function that returns a reference ([const rclcpp::Logger &]) and
    whose return statement binds it to a temporary: the temporary is
    destroyed when the function returns. *)
Definition reference_to_temporary (l : Logger) : Logger := destroyed.

(** [RCLCPP_INFO(logger, ...)], [RCLCPP_ERROR(logger, ...)]: the statement
    reads the logger it is given, and reading an object whose lifetime has
    ended has no defined behaviour. The text that is logged is a
    diagnostic and is left out. *)
Definition RCLCPP_LOG (l : Logger) : outcome unit :=
  match l with
  | alive => Returns tt
  | destroyed => Undefined
  end.

End rclcpp.
Export rclcpp.

(** ** The hardware interface *)

Module ovis_control.

(** The data members used by the methods: [info_] (of the base class),
    the two buffers and the session pointer ([None] is [nullptr]). *)
Record OvisHWInterface := {
  info_ : HardwareInfo;
  hw_states_ : list double;
  hw_commands_ : list double;
  comm : option KinovaComm }.

Definition set_info (this : OvisHWInterface) (i : HardwareInfo) :=
  {| info_ := i; hw_states_ := hw_states_ this;
     hw_commands_ := hw_commands_ this; comm := comm this |}.
Definition set_hw_states (this : OvisHWInterface) (v : list double) :=
  {| info_ := info_ this; hw_states_ := v;
     hw_commands_ := hw_commands_ this; comm := comm this |}.
Definition set_hw_commands (this : OvisHWInterface) (v : list double) :=
  {| info_ := info_ this; hw_states_ := hw_states_ this;
     hw_commands_ := v; comm := comm this |}.
Definition set_comm (this : OvisHWInterface) (c : option KinovaComm) :=
  {| info_ := info_ this; hw_states_ := hw_states_ this;
     hw_commands_ := hw_commands_ this; comm := c |}.

(** Modelled from the spec: the class declaration (ovis_control.hpp) is
    not among the sources. A new object has no joints yet, empty buffers
    and a null Session Handle ("non-null only between a successful
    activation and the next deactivation/destruction"). *)
Definition constructed : OvisHWInterface :=
  {| info_ := {| joints := [] |}; hw_states_ := []; hw_commands_ := [];
     comm := None |}.

Definition joint_count (this : OvisHWInterface) : nat :=
  length (joints (info_ this)).

(** [hardware_interface::SystemInterface::on_init(info)] is the
    framework's: it keeps the description in [info_] and answers; its
    answer [base] is an argument. *)
Definition SystemInterface_on_init (base : CallbackReturn) (info : HardwareInfo)
    (this : OvisHWInterface) : CallbackReturn * OvisHWInterface :=
  (base, set_info this info).

Definition on_init (base : CallbackReturn) (info : HardwareInfo)
    (this : OvisHWInterface) : CallbackReturn * OvisHWInterface :=
  let '(r, this) := SystemInterface_on_init base info this in
  match r with
  | SUCCESS =>
      let this := set_hw_states this
                    (resize (hw_states_ this) (joint_count this) quiet_NaN) in
      let this := set_hw_commands this
                    (resize (hw_commands_ this) (joint_count this) quiet_NaN) in
      (SUCCESS, this)
  | _ => (ERROR, this)
  end.

Definition on_configure (this : OvisHWInterface) : CallbackReturn * OvisHWInterface :=
  (SUCCESS, this).

(** [Interface(info_.joints[i].name, HW_IF_POSITION, &buffer[i])]: the
    handle of joint [j], the [i]-th of the joint set, into buffer [b]. *)
Definition handle_of (b : buffer) (i : nat) (j : ComponentInfo) : Handle :=
  {| prefix_name := name j; interface_name := HW_IF_POSITION;
     value_ptr := {| slot_buffer := b; slot_index := i |} |}.

(** The loop of the two export methods, at index [i] with the joints [js]
    still to come: [emplace_back] one handle per joint. *)
Fixpoint export_loop (b : buffer) (js : list ComponentInfo) (i : nat)
    (out : list Handle) : list Handle :=
  match js with
  | [] => out
  | j :: js => export_loop b js (S i) (out ++ [handle_of b i j])
  end.

Definition export_state_interfaces (this : OvisHWInterface) : list StateInterface :=
  export_loop hw_states (joints (info_ this)) 0 [].

Definition export_command_interfaces (this : OvisHWInterface) : list CommandInterface :=
  export_loop hw_commands (joints (info_ this)) 0 [].

(** What the framework does with a handle: read the value it points to,
    and store one through it. A pointer past the end of its vector has
    no value behind it. *)
Definition buffer_of (this : OvisHWInterface) (b : buffer) : list double :=
  match b with hw_states => hw_states_ this | hw_commands => hw_commands_ this end.

Definition get_value (this : OvisHWInterface) (h : Handle) : option double :=
  buffer_of this (slot_buffer (value_ptr h)) !! slot_index (value_ptr h).

Definition set_value (this : OvisHWInterface) (h : Handle) (v : double)
    : option OvisHWInterface :=
  let p := value_ptr h in
  if decide (slot_index p < length (buffer_of this (slot_buffer p)))%nat then
    Some match slot_buffer p with
         | hw_states => set_hw_states this (<[slot_index p := v]> (hw_states_ this))
         | hw_commands => set_hw_commands this (<[slot_index p := v]> (hw_commands_ this))
         end
  else None.

(** [logger()], lines 170-173: [return rclcpp::get_logger(get_name());]
    in a function whose return type is [const rclcpp::Logger &]. The
    caller gets a reference to a logger that is destroyed. [on_init] and
    [read] do not use it: they log through [rclcpp::get_logger] itself,
    which has no effect on the object, and those statements are left out
    of the two methods. *)
Definition logger (this : OvisHWInterface) : Logger :=
  reference_to_temporary get_logger.

(** Lines 83-95. The try block logs through [logger()], assigns
    [comm = new kinova::KinovaComm(mApiMutex, this->info_)] and logs
    again; when the constructor throws, nothing is assigned and the catch
    clause logs through [logger()] and answers ERROR. The assignment
    overwrites the pointer: a session it referred to before would stay
    open with no pointer to it. *)
Definition on_activate (ans : open_answer) (this : OvisHWInterface) (lib : Library)
    : outcome (CallbackReturn * OvisHWInterface * Library) :=
  u <- RCLCPP_LOG (logger this) ;;
  match ans with
  | open_throws _ =>
      u <- RCLCPP_LOG (logger this) ;;
      Returns (ERROR, this, lib)
  | opened =>
      let s := created lib in
      let lib := {| created := S (created lib);
                    lost := option_list (comm this) ++ lost lib;
                    closed := closed lib; sent := sent lib |} in
      let this := set_comm this (Some s) in
      u <- RCLCPP_LOG (logger this) ;;
      Returns (SUCCESS, this, lib)
  end.

(** [if (comm != nullptr) delete comm; comm = nullptr;] *)
Definition release (this : OvisHWInterface) (lib : Library)
    : OvisHWInterface * Library :=
  let lib := match comm this with
             | Some s => {| created := created lib; lost := lost lib;
                            closed := s :: closed lib; sent := sent lib |}
             | None => lib
             end in
  (set_comm this None, lib).

Definition on_deactivate (this : OvisHWInterface) (lib : Library)
    : CallbackReturn * OvisHWInterface * Library :=
  let '(this, lib) := release this lib in (SUCCESS, this, lib).

(** [~OvisHWInterface()] *)
Definition destructor (this : OvisHWInterface) (lib : Library)
    : OvisHWInterface * Library :=
  release this lib.

(** The loop of [read], at index [i] with [n] rounds left:
    [hw_states_.at(i) = (double)angles[i]]. *)
Fixpoint read_loop (angles : KinovaAngles) (n i : nat) (hw : list double)
    : outcome (list double) :=
  match n with
  | O => Returns hw
  | S n =>
      x <- index angles i ;;
      hw <- at_put hw i (float_to_double x) ;;
      read_loop angles n (S i) hw
  end.

Definition read (ans : get_answer) (this : OvisHWInterface) (lib : Library)
    : outcome (return_type * OvisHWInterface * Library) :=
  match comm this with
  | None => Undefined
  | Some _ =>
      match ans with
      | get_throws _ => Returns (ERROR_, this, lib)
      | got angles =>
          hw <- read_loop angles (joint_count this) 0 (hw_states_ this) ;;
          Returns (OK, set_hw_states this hw, lib)
      end
  end.

(** The loop of [write]: [angles[i] = (float)hw_commands_.at(i)]. *)
Fixpoint write_loop (hw : list double) (n i : nat) (angles : KinovaAngles)
    : outcome KinovaAngles :=
  match n with
  | O => Returns angles
  | S n =>
      x <- at_ hw i ;;
      angles <- index_put angles i (double_to_float x) ;;
      write_loop hw n (S i) angles
  end.

(** Lines 138-152 of [write]: the loop, and then the call
    [comm->setJointAngles(angles)] through the handle. The result is the
    session and the record the call is made with. [angles0] is what the
    local [KinovaAngles angles;] holds before the loop fills it. *)
Definition setJointAngles_call (angles0 : KinovaAngles) (this : OvisHWInterface)
    : outcome (KinovaComm * KinovaAngles) :=
  angles <- write_loop (hw_commands_ this) (joint_count this) 0 angles0 ;;
  match comm this with
  | None => Undefined
  | Some s => Returns (s, angles)
  end.

(** [write]: the call, and after it a logging statement through
    [logger()] on either path: line 153 when the library accepted the
    record, before [return OK], and line 157 in the catch clause, before
    [return ERROR]. *)
Definition write (angles0 : KinovaAngles) (ans : set_answer)
    (this : OvisHWInterface) (lib : Library)
    : outcome (return_type * OvisHWInterface * Library) :=
  c <- setJointAngles_call angles0 this ;;
  let lib := {| created := created lib; lost := lost lib; closed := closed lib;
                sent := sent lib ++ [c] |} in
  match ans with
  | accepted =>
      u <- RCLCPP_LOG (logger this) ;;
      Returns (OK, this, lib)
  | set_throws _ =>
      u <- RCLCPP_LOG (logger this) ;;
      Returns (ERROR_, this, lib)
  end.

(** The sessions that are open: the one [comm] points to and the lost ones. *)
Definition open_sessions (this : OvisHWInterface) (lib : Library) : list KinovaComm :=
  option_list (comm this) ++ lost lib.

End ovis_control.
Export ovis_control.

(** ** The lifecycle *)

Module lifecycle.

(** Modelled from the spec: the lifecycle state of the component is kept
    by the owning framework, which is not among the sources. "States:
    Unconfigured → Configured → Active, with an explicit Inactive
    (deactivated) state reachable from Active, and a terminal Finalized
    state reachable from any state on teardown." *)
Inductive State := Unconfigured | Configured | Active | Inactive | Finalized.

Record System := {
  state : State;
  object : OvisHWInterface;
  library : Library }.

(** The calls of the owning framework, each with what the outside world
    answers during the call. *)
Inductive call :=
  | initialize (base : CallbackReturn) (info : HardwareInfo)
  | configure
  | activate (ans : open_answer)
  | deactivate
  | cycle_read (ans : get_answer)
  | cycle_write (angles0 : KinovaAngles) (ans : set_answer)
  | command (h : CommandInterface) (v : double)
  | teardown.

(** Modelled from the spec: where a transition leads. A callback that
    does not answer SUCCESS leaves the state where it was ("state
    remains Configured (not Active)"). *)
Definition after (r : CallbackReturn) (target old : State) : State :=
  match r with SUCCESS => target | _ => old end.

Definition can_activate (s : State) : bool :=
  match s with Configured | Inactive => true | _ => false end.

Definition after_deactivate (s : State) : State :=
  match s with Active => Inactive | _ => s end.

(** Modelled from the spec: which call the framework makes in which
    state (section 4.1: [activate] has the precondition "not already
    active"; [deactivate] is accepted in every state before teardown;
    [read] and [write] are cycle calls of the Active state). The effect
    of each call on the object and on the library is the source's. *)
Inductive step : System -> call -> System -> Prop :=
  | step_initialize base info obj lib r obj' :
      on_init base info obj = (r, obj') ->
      step (Build_System Unconfigured obj lib) (initialize base info)
           (Build_System Unconfigured obj' lib)
  | step_configure obj lib r obj' :
      on_configure obj = (r, obj') ->
      step (Build_System Unconfigured obj lib) configure
           (Build_System (after r Configured Unconfigured) obj' lib)
  | step_activate s ans obj lib r obj' lib' :
      can_activate s = true ->
      on_activate ans obj lib = Returns (r, obj', lib') ->
      step (Build_System s obj lib) (activate ans)
           (Build_System (after r Active s) obj' lib')
  | step_deactivate s obj lib r obj' lib' :
      s <> Finalized ->
      on_deactivate obj lib = (r, obj', lib') ->
      step (Build_System s obj lib) deactivate
           (Build_System (after r (after_deactivate s) s) obj' lib')
  | step_read ans obj lib r obj' lib' :
      read ans obj lib = Returns (r, obj', lib') ->
      step (Build_System Active obj lib) (cycle_read ans)
           (Build_System Active obj' lib')
  | step_write angles0 ans obj lib r obj' lib' :
      write angles0 ans obj lib = Returns (r, obj', lib') ->
      step (Build_System Active obj lib) (cycle_write angles0 ans)
           (Build_System Active obj' lib')
  | step_command s h v obj lib obj' :
      s <> Finalized ->
      slot_buffer (value_ptr h) = hw_commands ->
      set_value obj h v = Some obj' ->
      step (Build_System s obj lib) (command h v) (Build_System s obj' lib)
  | step_teardown s obj lib obj' lib' :
      s <> Finalized ->
      destructor obj lib = (obj', lib') ->
      step (Build_System s obj lib) teardown (Build_System Finalized obj' lib').

(** A process starts with a new object and a library that has not opened
    a session yet. *)
Definition fresh_library : Library :=
  {| created := 0; lost := []; closed := []; sent := [] |}.

Definition start : System :=
  {| state := Unconfigured; object := constructed; library := fresh_library |}.

(** [run sys calls sys']: the calls, in order, lead from [sys] to [sys']. *)
Inductive run : System -> list call -> System -> Prop :=
  | run_nil sys : run sys [] sys
  | run_cons sys c sys' cs sys'' :
      step sys c sys' -> run sys' cs sys'' -> run sys (c :: cs) sys''.

Definition reachable (sys : System) : Prop := exists cs, run start cs sys.

End lifecycle.
Export lifecycle.

(** ** The Angle Vector Adapter and the numbers of the scenarios *)

Module adapter.

(** The conversions of section 4.2 are the two loops of the source:
    [to_native] is the loop of [write] over six slots, [from_native] the
    loop of [read] over six slots (into any buffer of six entries). *)
Definition to_native (angles0 : KinovaAngles) (v : list double) : outcome KinovaAngles :=
  write_loop v 6 0 angles0.

Definition from_native (a : KinovaAngles) : outcome (list double) :=
  read_loop a 6 0 (replicate 6 quiet_NaN).

Definition round_trip (angles0 : KinovaAngles) (v : list double) : outcome (list double) :=
  a <- to_native angles0 v ;; from_native a.

(** A finite double is a whole number of units of [2^-1074], the smallest
    positive double: [units x] is that number. *)
Definition units (x : double) : option Z :=
  match x with
  | S754_zero _ => Some 0
  | S754_finite s m e =>
      if e <? -1074 then None else Some (cond_Zopp s (Zpos m) * 2 ^ (e + 1074))
  | _ => None
  end.

(** [w] equals [v] within single-precision rounding: both are numbers
    (zero or finite) and [w] is at most half a unit in the last place of
    a [float] away from [v], that is [|w - v| <= 2^-24 * |v|], or
    [|w - v| <= 2^-150] where [float] is subnormal. In units of [2^-1074]
    these are [|a| / 2^24] and [2^924]. *)
Definition within_float_rounding (v w : double) : bool :=
  match units v, units w with
  | Some a, Some b => 2 ^ 24 * Z.abs (b - a) <=? Z.max (Z.abs a) (2 ^ 948)
  | _, _ => false
  end.

(** [FLT_MAX = (2^24 - 1) * 2^104], the largest finite [float], as a double. *)
Definition FLT_MAX : double := S754_finite false ((2 ^ 24 - 1) * 2 ^ 29) 75.

(** A double of the format that is a number of magnitude at most
    [FLT_MAX]: a zero, or finite with [|v| <= FLT_MAX]. *)
Definition float_range (v : double) : bool :=
  valid_double v && SFleb (SFabs v) FLT_MAX.

(** [shifted m n mrs]: the record [mrs] is [m] shifted right by [n] bits,
    with the round bit and the sticky bit of what was shifted out. *)
Definition shifted (m n : Z) (mrs : shr_record) : Prop :=
  0 <= shr_m mrs /\
  exists t, 0 <= t < 2 ^ n /\
    2 * m = (2 * shr_m mrs + Z.b2z (shr_r mrs)) * 2 ^ n + t /\
    shr_s mrs = (0 <? t).

(** The doubles nearest to 0.1, 0.2, 0.3, 0.4, 0.5 and 0.6. *)
Definition d0_1 : double := S754_finite false 7205759403792794 (-56).
Definition d0_2 : double := S754_finite false 7205759403792794 (-55).
Definition d0_3 : double := S754_finite false 5404319552844595 (-54).
Definition d0_4 : double := S754_finite false 7205759403792794 (-54).
Definition d0_5 : double := S754_finite false 4503599627370496 (-53).
Definition d0_6 : double := S754_finite false 5404319552844595 (-53).

(** The floats nearest to them. *)
Definition f0_1 : float := S754_finite false 13421773 (-27).
Definition f0_2 : float := S754_finite false 13421773 (-26).
Definition f0_3 : float := S754_finite false 10066330 (-25).
Definition f0_4 : float := S754_finite false 13421773 (-25).
Definition f0_5 : float := S754_finite false 8388608 (-24).
Definition f0_6 : float := S754_finite false 10066330 (-24).

(** The six joints of the scenario. *)
Definition six_joints : HardwareInfo :=
  {| joints := [ {| name := "actuator_1" |}; {| name := "actuator_2" |};
                 {| name := "actuator_3" |}; {| name := "actuator_4" |};
                 {| name := "actuator_5" |}; {| name := "actuator_6" |} ] |}.

(** [2^128] as a double: finite, and larger than every finite float. *)
Definition two_pow_128 : double := S754_finite false (2 ^ 52) 76.

(** Six commands of which the first is [2^128], and what comes back of
    them. *)
Definition large_commands : list double :=
  [two_pow_128; d0_2; d0_3; d0_4; d0_5; d0_6].

Definition large_read_back : list double :=
  [S754_infinity false; float_to_double f0_2; float_to_double f0_3;
   float_to_double f0_4; float_to_double f0_5; float_to_double f0_6].

(** The scenario of section 8: six joints, initialised, holding a session
    (the first one the library created), with the commands 0.1 .. 0.6
    stored by the framework. *)
Definition six_commands : list double := [d0_1; d0_2; d0_3; d0_4; d0_5; d0_6].

Definition scenario_object : OvisHWInterface :=
  {| info_ := six_joints; hw_states_ := replicate 6 quiet_NaN;
     hw_commands_ := six_commands; comm := Some 0%nat |}.

Definition scenario_library : Library :=
  {| created := 1; lost := []; closed := []; sent := [] |}.

(** The same object without a session: initialised, never activated. *)
Definition inactive_object : OvisHWInterface :=
  {| info_ := six_joints; hw_states_ := replicate 6 quiet_NaN;
     hw_commands_ := six_commands; comm := None |}.



(** A life in which the session cannot be opened: the activation of the
    third call is where it ends. *)
Definition a_failed_activation : list call :=
  [initialize SUCCESS six_joints; configure; activate (open_throws "unreachable");
   teardown].

Definition zero_angles : KinovaAngles :=
  {| Actuator1 := S754_zero false; Actuator2 := S754_zero false;
     Actuator3 := S754_zero false; Actuator4 := S754_zero false;
     Actuator5 := S754_zero false; Actuator6 := S754_zero false |}.

End adapter.
Export adapter.

(** ** The methods in any order *)

Module calls.

(** A call of a method of the object, with what the outside world answers
    during the call. [call_set_value] is the framework storing a value
    through a handle it was given. *)
Inductive method :=
  | call_on_init (base : CallbackReturn) (info : HardwareInfo)
  | call_on_configure
  | call_on_activate (ans : open_answer)
  | call_on_deactivate
  | call_read (ans : get_answer)
  | call_write (angles0 : KinovaAngles) (ans : set_answer)
  | call_set_value (h : Handle) (v : double).

(** The object and the library after the call; [None] when the call does
    not return (an exception escapes, or the behaviour is undefined), or
    when the handle points past the end of its vector. *)
Definition invoke (c : method) (this : OvisHWInterface) (lib : Library)
    : option (OvisHWInterface * Library) :=
  match c with
  | call_on_init base info => Some (snd (on_init base info this), lib)
  | call_on_configure => Some (snd (on_configure this), lib)
  | call_on_activate ans =>
      match on_activate ans this lib with
      | Returns (_, this, lib) => Some (this, lib)
      | _ => None
      end
  | call_on_deactivate =>
      let '(_, this, lib) := on_deactivate this lib in Some (this, lib)
  | call_read ans =>
      match read ans this lib with
      | Returns (_, this, lib) => Some (this, lib)
      | _ => None
      end
  | call_write angles0 ans =>
      match write angles0 ans this lib with
      | Returns (_, this, lib) => Some (this, lib)
      | _ => None
      end
  | call_set_value h v =>
      match set_value this h v with
      | Some this => Some (this, lib)
      | None => None
      end
  end.

(** The calls of a list, the first one first. *)
Fixpoint invoke_all (cs : list method) (this : OvisHWInterface) (lib : Library)
    : option (OvisHWInterface * Library) :=
  match cs with
  | [] => Some (this, lib)
  | c :: cs =>
      match invoke c this lib with
      | Some (this, lib) => invoke_all cs this lib
      | None => None
      end
  end.

Definition is_on_init (c : method) : bool :=
  match c with call_on_init _ _ => true | _ => false end.

(** Every session the library knows of: the one the object holds, the
    lost ones and the closed ones. *)
Definition sessions_of (this : OvisHWInterface) (lib : Library) : list KinovaComm :=
  option_list (comm this) ++ lost lib ++ closed lib.

(** The sign of a zero, a finite number or an infinity; NaN has none. *)
Definition sign_of (x : spec_float) : option bool :=
  match x with
  | S754_zero s | S754_infinity s | S754_finite s _ _ => Some s
  | S754_nan => None
  end.

(** An object that was initialised for six joints and holds a session,
    with no command stored yet: both buffers hold the quiet NaN. *)
Definition object_with_session : OvisHWInterface :=
  {| info_ := six_joints; hw_states_ := replicate 6 quiet_NaN;
     hw_commands_ := replicate 6 quiet_NaN; comm := Some 0%nat |}.

(** A record of six floats of the format none of which is NaN: zeros,
    finite numbers and infinities. *)
Definition valid_angles (a : KinovaAngles) : Prop :=
  Forall (fun f => valid_float f = true /\ is_nan f = false) (slots a).

End calls.
Export calls.

(** * Properties *)

Local Open Scope nat_scope.

(** ** Vectors *)

Section vectors.
Context {A : Type}.
Implicit Types (v : list A) (x : A) (n i : nat).

Lemma length_resize v n x : length (resize v n x) = n.
Proof.
  unfold resize. rewrite length_app, length_take, length_replicate. lia.
Qed.

Lemma resize_nil n x : resize [] n x = replicate n x.
Proof. unfold resize. rewrite take_nil. simpl. f_equal. lia. Qed.

(** [resize] never touches an entry that was there before. *)
Lemma resize_lookup_old v n x i :
  i < n -> i < length v -> resize v n x !! i = v !! i.
Proof.
  intros Hn Hv. unfold resize.
  rewrite lookup_app_l by (rewrite length_take; lia).
  by rewrite lookup_take_lt.
Qed.

Lemma at_put_in v i x : i < length v -> at_put v i x = Returns (<[i:=x]> v).
Proof. intros H. unfold at_put. by rewrite decide_True. Qed.

Lemma at_in v i x : v !! i = Some x -> at_ v i = Returns x.
Proof. intros H. unfold at_. by rewrite H. Qed.
End vectors.

(** ** Initialisation *)

Lemma on_init_answer base info this :
  fst (on_init base info this) = match base with SUCCESS => SUCCESS | _ => ERROR end.
Proof. by destruct base. Qed.

(** Whatever the object held before: a successful [on_init] leaves both
    buffers with one entry per joint. *)
Lemma on_init_lengths info this this' :
  on_init SUCCESS info this = (SUCCESS, this') ->
  info_ this' = info /\
  length (hw_states_ this') = length (joints info) /\
  length (hw_commands_ this') = length (joints info).
Proof.
  intros H. injection H as <-. simpl.
  unfold joint_count. simpl. by rewrite !length_resize.
Qed.

(** C1: for every joint set (of any size N, so also for N >= 1), when
    [on_init] of a newly constructed object succeeds, the State Buffer and
    the Command Buffer both hold exactly N entries and each entry is the
    quiet NaN. *)
Theorem on_init_buffers_unknown (base : CallbackReturn) (info : HardwareInfo)
    (this : OvisHWInterface) :
  on_init base info constructed = (SUCCESS, this) ->
  let N := length (joints info) in
  length (hw_states_ this) = N /\ length (hw_commands_ this) = N /\
  hw_states_ this = replicate N quiet_NaN /\
  hw_commands_ this = replicate N quiet_NaN /\
  Forall (fun x => is_nan x = true) (hw_states_ this) /\
  Forall (fun x => is_nan x = true) (hw_commands_ this).
Proof.
  intros H N. destruct base; try discriminate.
  injection H as <-. simpl. unfold joint_count. simpl.
  rewrite !resize_nil, !length_replicate. fold N.
  repeat split; by apply Forall_replicate.
Qed.

Lemma on_init_buffers_unknown_witness :
  on_init SUCCESS six_joints constructed
    = (SUCCESS, {| info_ := six_joints;
                   hw_states_ := replicate 6 quiet_NaN;
                   hw_commands_ := replicate 6 quiet_NaN; comm := None |}) /\
  length (replicate 6 quiet_NaN) = 6.
Proof.
  split; [reflexivity|].
  exact (proj1 (on_init_buffers_unknown SUCCESS six_joints _ eq_refl)).
Defined.

(** A second [on_init] on the same object keeps what the buffers hold. *)
Lemma on_init_again_keeps info this i :
  i < length (joints info) -> i < length (hw_states_ this) ->
  hw_states_ (snd (on_init SUCCESS info this)) !! i = hw_states_ this !! i.
Proof. intros Hi Hl. simpl. unfold joint_count. simpl. by apply resize_lookup_old. Qed.

(** ** Deactivation and teardown *)


Lemma release_spec this lib :
  release this lib
  = (set_comm this None,
     {| created := created lib; lost := lost lib;
        closed := option_list (comm this) ++ closed lib; sent := sent lib |}).
Proof. unfold release. destruct (comm this), lib; reflexivity. Qed.


(** C5: from every state [on_deactivate] answers SUCCESS; a session that
    the handle referred to is closed and the handle is null afterwards; a
    second [on_deactivate] answers SUCCESS again and changes nothing, so
    calling it twice ends in the state that calling it once ends in. *)
Theorem on_deactivate_idempotent (this : OvisHWInterface) (lib : Library) :
  exists this' lib',
    on_deactivate this lib = (SUCCESS, this', lib') /\
    comm this' = None /\
    closed lib' = option_list (comm this) ++ closed lib /\
    open_sessions this' lib' = lost lib /\
    on_deactivate this' lib' = (SUCCESS, this', lib').
Proof.
  unfold on_deactivate. rewrite release_spec. eexists _, _.
  split; [reflexivity|]. repeat split.
Qed.

(** ** Exported interfaces *)

Lemma export_loop_spec b js i out :
  export_loop b js i out = out ++ imap (fun k => handle_of b (i + k)) js.
Proof.
  revert i out. induction js as [|j js IH]; intros i out; simpl.
  - by rewrite app_nil_r.
  - rewrite IH, <- app_assoc. simpl. rewrite Nat.add_0_r.
    do 2 f_equal. apply imap_ext. intros k x _. simpl. f_equal. lia.
Qed.

Lemma export_lookup b js i :
  export_loop b js 0 [] !! i = handle_of b i <$> js !! i.
Proof. rewrite export_loop_spec. simpl. by rewrite list_lookup_imap. Qed.

(** C9: for every joint set, of size N, [export_state_interfaces] and
    [export_command_interfaces] each return N handles; the handle at
    index i carries the name of joint i and the interface name
    "position" and points to slot i of the State Buffer (of the Command
    Buffer): reading through it reads that slot. *)
Theorem export_interfaces_bound_to_slots (this : OvisHWInterface) :
  length (export_state_interfaces this) = joint_count this /\
  length (export_command_interfaces this) = joint_count this /\
  forall i : nat,
    export_state_interfaces this !! i
      = (fun j => {| prefix_name := name j; interface_name := "position";
                     value_ptr := {| slot_buffer := hw_states; slot_index := i |} |})
        <$> joints (info_ this) !! i /\
    export_command_interfaces this !! i
      = (fun j => {| prefix_name := name j; interface_name := "position";
                     value_ptr := {| slot_buffer := hw_commands; slot_index := i |} |})
        <$> joints (info_ this) !! i /\
    (get_value this <$> export_state_interfaces this !! i)
      = ((fun _ => hw_states_ this !! i) <$> joints (info_ this) !! i) /\
    (get_value this <$> export_command_interfaces this !! i)
      = ((fun _ => hw_commands_ this !! i) <$> joints (info_ this) !! i).
Proof.
  unfold export_state_interfaces, export_command_interfaces, joint_count.
  rewrite !export_loop_spec. simpl. rewrite !length_imap.
  split; [done|]. split; [done|]. intros i.
  rewrite !list_lookup_imap. simpl.
  destruct (joints (info_ this) !! i); done.
Qed.

(** Storing through the command handle of joint [i] changes slot [i] of
    the Command Buffer and nothing else. *)
Lemma set_value_command this i j v :
  i < length (hw_commands_ this) ->
  set_value this (handle_of hw_commands i j) v
  = Some (set_hw_commands this (<[i:=v]> (hw_commands_ this))).
Proof. intros H. unfold set_value. simpl. by rewrite decide_True. Qed.

(** ** The cycle: [read] and [write] *)

Lemma index_in a i x : slots a !! i = Some x -> index a i = Returns x.
Proof. intros H. unfold index. by rewrite H. Qed.

Lemma slots_length a : length (slots a) = 6.
Proof. reflexivity. Qed.

(** The loop of [read] overwrites the slots [i .. i+n-1] with the widened
    device values and leaves the others. *)
Lemma read_loop_spec angles n : forall i hw,
  i + n <= 6 -> i + n <= length hw ->
  read_loop angles n i hw
  = Returns (take i hw ++ take n (drop i (float_to_double <$> slots angles))
               ++ drop (i + n) hw).
Proof.
  induction n as [|n IH]; intros i hw H6 Hl; cbn [read_loop].
  - rewrite take_0, app_nil_l, Nat.add_0_r. by rewrite take_drop.
  - destruct (lookup_lt_is_Some_2 (slots angles) i) as [x Hx];
      [rewrite slots_length; lia|].
    rewrite (index_in _ _ _ Hx). cbn [bind].
    rewrite at_put_in by lia. cbn [bind].
    rewrite IH by (rewrite ?length_insert; lia).
    f_equal.
    rewrite (take_S_r _ _ (float_to_double x))
      by (apply list_lookup_insert_eq; lia).
    rewrite take_insert_ge by lia.
    rewrite drop_insert_lt by lia.
    rewrite (drop_S (float_to_double <$> slots angles) (float_to_double x) i)
      by (by rewrite list_lookup_fmap, Hx).
    rewrite <- app_assoc, firstn_cons. cbn [app].
    by replace (i + S n) with (S i + n) by lia.
Qed.

Lemma read_loop_all angles hw :
  length hw <= 6 ->
  read_loop angles (length hw) 0 hw
  = Returns (take (length hw) (float_to_double <$> slots angles)).
Proof.
  intros H. rewrite read_loop_spec by lia. simpl.
  by rewrite drop_all, app_nil_r.
Qed.

Lemma read_returns this lib s ans :
  comm this = Some s ->
  length (hw_states_ this) = joint_count this ->
  joint_count this <= 6 ->
  read ans this lib
  = match ans with
    | got angles =>
        Returns (OK,
                 set_hw_states this
                   (take (joint_count this) (float_to_double <$> slots angles)),
                 lib)
    | get_throws _ => Returns (ERROR_, this, lib)
    end.
Proof.
  intros Hc Hl H6. unfold read. rewrite Hc. destruct ans as [angles|what]; [|done].
  rewrite <- Hl at 1. rewrite read_loop_all by lia. simpl. by rewrite Hl.
Qed.

(** C2: with a session, a State Buffer of one entry per joint and at most
    six joints (the slots of the device record): when [getJointAngles]
    succeeds, [read] answers OK and the State Buffer holds, slot by slot
    and in joint order, the device values widened to double; when it
    throws, [read] answers ERROR and the object, so every slot of the
    State Buffer, is what it was. *)
Theorem read_overwrites_or_keeps (this : OvisHWInterface) (lib : Library)
    (s : KinovaComm) (ans : get_answer) :
  comm this = Some s ->
  length (hw_states_ this) = joint_count this ->
  joint_count this <= 6 ->
  match ans with
  | got angles =>
      exists this',
        read ans this lib = Returns (OK, this', lib) /\
        length (hw_states_ this') = joint_count this /\
        (forall i, (i < joint_count this)%nat ->
           hw_states_ this' !! i = float_to_double <$> slots angles !! i) /\
        hw_states_ this'
          = take (joint_count this) (float_to_double <$> slots angles)
  | get_throws _ => read ans this lib = Returns (ERROR_, this, lib)
  end.
Proof.
  intros Hc Hl H6. rewrite (read_returns this lib s ans Hc Hl H6).
  destruct ans as [angles|what]; [|done].
  eexists. split; [reflexivity|]. cbn [hw_states_ set_hw_states]. repeat split.
  - rewrite length_take, length_fmap, slots_length. lia.
  - intros i Hi. rewrite lookup_take_lt by done. apply list_lookup_fmap.
Qed.

Lemma read_overwrites_or_keeps_witness :
  read (get_throws "no answer")
       {| info_ := six_joints; hw_states_ := replicate 6 quiet_NaN;
          hw_commands_ := replicate 6 quiet_NaN; comm := Some 0 |} fresh_library
  = Returns (ERROR_,
             {| info_ := six_joints; hw_states_ := replicate 6 quiet_NaN;
                hw_commands_ := replicate 6 quiet_NaN; comm := Some 0 |},
             fresh_library).
Proof.
  apply (read_overwrites_or_keeps
           {| info_ := six_joints; hw_states_ := replicate 6 quiet_NaN;
              hw_commands_ := replicate 6 quiet_NaN; comm := Some 0 |}
           fresh_library 0 (get_throws "no answer")).
  - reflexivity.
  - reflexivity.
  - vm_compute. lia.
Defined.

(** The same at a successful [getJointAngles]: a State Buffer of six
    unknowns becomes the six device values. *)
Example read_six_values :
  read (got {| Actuator1 := f0_1; Actuator2 := f0_2; Actuator3 := f0_3;
               Actuator4 := f0_4; Actuator5 := f0_5; Actuator6 := f0_6 |})
       {| info_ := six_joints; hw_states_ := replicate 6 quiet_NaN;
          hw_commands_ := replicate 6 quiet_NaN; comm := Some 0 |} fresh_library
  = Returns (OK,
             {| info_ := six_joints;
                hw_states_ := float_to_double <$> [f0_1; f0_2; f0_3; f0_4; f0_5; f0_6];
                hw_commands_ := replicate 6 quiet_NaN; comm := Some 0 |},
             fresh_library).
Proof. reflexivity. Qed.

Lemma index_put_in a i x :
  i < 6 -> exists a', index_put a i x = Returns a' /\ slots a' = <[i:=x]> (slots a).
Proof.
  intros H. do 6 (destruct i as [|i]; [eexists; split; reflexivity|]). lia.
Qed.

Lemma slots_inj a b : slots a = slots b -> a = b.
Proof. destruct a, b. unfold slots. simpl. intros [=]. by subst. Qed.

(** The loop of [write] fills the slots [i .. i+n-1] of the record with
    the narrowed commands and leaves the others. *)
Lemma write_loop_spec hw n : forall i angles,
  i + n <= 6 -> i + n <= length hw ->
  exists a,
    write_loop hw n i angles = Returns a /\
    slots a = take i (slots angles)
              ++ (double_to_float <$> take n (drop i hw))
              ++ drop (i + n) (slots angles).
Proof.
  induction n as [|n IH]; intros i angles H6 Hl; cbn [write_loop].
  - exists angles. split; [done|].
    rewrite take_0, Nat.add_0_r. cbn [fmap list_fmap app]. by rewrite take_drop.
  - destruct (lookup_lt_is_Some_2 hw i) as [x Hx]; [lia|].
    rewrite (at_in _ _ _ Hx). cbn [bind].
    destruct (index_put_in angles i (double_to_float x)) as (a' & Hput & Ha'); [lia|].
    rewrite Hput. cbn [bind].
    destruct (IH (S i) a') as (a & Hw & Ha); [lia..|].
    exists a. split; [done|]. rewrite Ha, Ha'.
    rewrite (take_S_r _ _ (double_to_float x))
      by (apply list_lookup_insert_eq; rewrite slots_length; lia).
    rewrite take_insert_ge by lia.
    rewrite drop_insert_lt by lia.
    rewrite (drop_S hw x i) by done.
    rewrite <- app_assoc, firstn_cons, fmap_cons. cbn [app].
    by replace (i + S n) with (S i + n) by lia.
Qed.

Lemma write_loop_all hw angles0 :
  length hw <= 6 ->
  exists a,
    write_loop hw (length hw) 0 angles0 = Returns a /\
    slots a = (double_to_float <$> hw) ++ drop (length hw) (slots angles0).
Proof.
  intros H. destruct (write_loop_spec hw (length hw) 0 angles0) as (a & Hw & Ha); [lia..|].
  exists a. split; [done|]. rewrite Ha. by rewrite take_0, drop_0, firstn_all.
Qed.

(** With a session and a Command Buffer of one entry per joint, at most
    six: the loop of [write] fills the record and [setJointAngles] is
    called on the session with it. *)
Lemma setJointAngles_call_spec this s angles0 :
  comm this = Some s ->
  length (hw_commands_ this) = joint_count this ->
  joint_count this <= 6 ->
  exists a,
    slots a = (double_to_float <$> hw_commands_ this)
              ++ drop (joint_count this) (slots angles0) /\
    setJointAngles_call angles0 this = Returns (s, a).
Proof.
  intros Hc Hl H6. unfold setJointAngles_call. rewrite <- Hl.
  destruct (write_loop_all (hw_commands_ this) angles0) as (a & Hw & Ha); [lia|].
  exists a. split; [done|]. rewrite Hw. cbn [bind]. by rewrite Hc.
Qed.

(** What follows the call in [write] reads through [logger()]. *)
Lemma write_after_call angles0 ans this lib c :
  setJointAngles_call angles0 this = Returns c ->
  write angles0 ans this lib = Undefined.
Proof. intros E. unfold write. rewrite E. by destruct ans. Qed.

(** [write] has no path on which it returns. *)
Lemma write_never_returns angles0 ans this lib r :
  write angles0 ans this lib <> Returns r.
Proof.
  unfold write. destruct (setJointAngles_call angles0 this); cbn [bind];
    [by destruct ans|done|done].
Qed.

(** Nor has [on_activate]: its first statement reads through [logger()]. *)
Lemma on_activate_undefined ans this lib : on_activate ans this lib = Undefined.
Proof. reflexivity. Qed.

(** Whenever [read] returns, only the State Buffer can differ. *)
Lemma read_keeps_rest ans this lib r this' lib' :
  read ans this lib = Returns (r, this', lib') ->
  hw_commands_ this' = hw_commands_ this /\ comm this' = comm this /\
  info_ this' = info_ this /\ lib' = lib.
Proof.
  unfold read. destruct (comm this) eqn:Hc; try discriminate.
  destruct ans; [|by intros [=]; subst].
  destruct (read_loop _ _ _ _); cbn [bind]; try discriminate.
  by intros [=]; subst.
Qed.



(** C6, as the code has it: with the six joints and the Command Buffer
    0.1 .. 0.6, holding a session: [write] calls [setJointAngles] on the
    session with one record, whose six slots are the six commands
    narrowed to float, in joint order; after the call, whether the
    library accepts the record or throws, [write] reads through
    [logger()] and has no defined behaviour: it does not return OK. *)
Theorem write_six_commands (angles0 : KinovaAngles) (ans : set_answer) :
  setJointAngles_call angles0 scenario_object
  = Returns (0, {| Actuator1 := f0_1; Actuator2 := f0_2; Actuator3 := f0_3;
                   Actuator4 := f0_4; Actuator5 := f0_5; Actuator6 := f0_6 |}) /\
  [f0_1; f0_2; f0_3; f0_4; f0_5; f0_6]
  = double_to_float <$> hw_commands_ scenario_object /\
  write angles0 ans scenario_object scenario_library = Undefined.
Proof. destruct ans; repeat split. Qed.

(** ** A null Session Handle *)

Lemma write_null this lib angles0 ans :
  comm this = None ->
  length (hw_commands_ this) = joint_count this ->
  joint_count this <= 6 ->
  write angles0 ans this lib = Undefined.
Proof.
  intros Hc Hl H6. unfold write, setJointAngles_call. rewrite <- Hl.
  destruct (write_loop_all (hw_commands_ this) angles0) as (a & -> & _); [lia|].
  cbn [bind]. by rewrite Hc.
Qed.

(** C8, as the code has it: [read] and [write] do not test the Session
    Handle. With a null handle [read] has no defined behaviour, whatever
    the library would answer, and [write] never returns a result (with
    buffers of one entry per joint, at most six, it has no defined
    behaviour either): no failure result is produced. *)
Theorem null_session_is_undefined (this : OvisHWInterface) (lib : Library) :
  comm this = None ->
  (forall ans, read ans this lib = Undefined) /\
  (forall angles0 ans r, write angles0 ans this lib <> Returns r) /\
  (length (hw_commands_ this) = joint_count this -> joint_count this <= 6 ->
   forall angles0 ans, write angles0 ans this lib = Undefined).
Proof.
  intros Hc. split; [|split].
  - intros ans. unfold read. by rewrite Hc.
  - intros. by apply write_never_returns.
  - intros. by apply write_null.
Qed.

Lemma null_session_is_undefined_witness :
  (forall ans, read ans inactive_object fresh_library = Undefined) /\
  (forall angles0 ans r,
     write angles0 ans inactive_object fresh_library <> Returns r) /\
  (length (hw_commands_ inactive_object) = joint_count inactive_object ->
   joint_count inactive_object <= 6 ->
   forall angles0 ans, write angles0 ans inactive_object fresh_library = Undefined).
Proof.
  apply (null_session_is_undefined inactive_object fresh_library). reflexivity.
Defined.

(** C8, as the claim has it, fails: with a null Session Handle and a link
    that would fail, neither [read] nor [write] returns ERROR (nor
    anything else). *)
Lemma null_session_no_failure_result :
  read (get_throws "no answer") inactive_object fresh_library = Undefined /\
  write zero_angles (set_throws "no answer") inactive_object fresh_library = Undefined /\
  ~ (exists this' lib',
       read (get_throws "no answer") inactive_object fresh_library
       = Returns (ERROR_, this', lib')) /\
  ~ (exists this' lib',
       write zero_angles (set_throws "no answer") inactive_object fresh_library
       = Returns (ERROR_, this', lib')).
Proof.
  repeat split; intros (this' & lib' & H); discriminate H.
Qed.

(** ** The lifecycle of the session *)

Lemma on_init_comm base info this : comm (snd (on_init base info this)) = comm this.
Proof. by destruct base. Qed.

Lemma set_value_comm this h v this' :
  set_value this h v = Some this' -> comm this' = comm this.
Proof.
  unfold set_value. case_decide; [|done].
  intros [= <-]. by destruct (slot_buffer (value_ptr h)).
Qed.

(** C3, as the code has it: when the constructor of the session throws,
    and on every other path, [on_activate] has no defined behaviour: its
    first statement logs through [logger()], before the session is
    opened, and the catch clause does so again before [return ERROR]. It
    answers no failure result, and the lifecycle has no state that
    follows the call. *)
Theorem activate_failure_is_undefined (what : string) (obj : OvisHWInterface)
    (lib : Library) :
  on_activate (open_throws what) obj lib = Undefined /\
  (forall r obj' lib',
     on_activate (open_throws what) obj lib <> Returns (r, obj', lib')) /\
  (forall st sys',
     ~ step (Build_System st obj lib) (activate (open_throws what)) sys').
Proof.
  split; [done|]. split; [done|].
  intros st sys' Hstep. inversion Hstep; subst.
  match goal with E : on_activate _ _ _ = Returns _ |- _ => discriminate E end.
Qed.





(** The lifecycle in which the session cannot be opened has no run: the
    call of [activate] on the configured object leads nowhere, so there
    is no state after it from which the teardown could release or leak
    anything. *)
Example failed_activation_has_no_run :
  ~ exists sys, run start a_failed_activation sys.
Proof.
  intros [sys Hrun]. unfold a_failed_activation in Hrun.
  inversion Hrun as [|? ? ? ? ? _ Hrun1]; subst.
  inversion Hrun1 as [|? ? ? ? ? _ Hrun2]; subst.
  inversion Hrun2 as [|? ? ? ? ? Hstep _]; subst.
  inversion Hstep; subst.
  match goal with E : on_activate _ _ _ = Returns _ |- _ => discriminate E end.
Qed.

(** ** Narrowing to float and widening back *)

Local Open Scope Z_scope.

Lemma fexp32_eq x : fexp prec32 emax32 x = Z.max (x - 24) (-149).
Proof. reflexivity. Qed.

Lemma fexp64_eq x : fexp prec64 emax64 x = Z.max (x - 53) (-1074).
Proof. reflexivity. Qed.

Lemma digits2_bounds m :
  2 ^ (Zpos (digits2_pos m) - 1) <= Zpos m < 2 ^ Zpos (digits2_pos m).
Proof.
  induction m as [m IH|m IH|]; cbn [digits2_pos].
  - rewrite Pos2Z.inj_succ.
    replace (Z.succ (Zpos (digits2_pos m)) - 1) with (Z.succ (Zpos (digits2_pos m) - 1)) by lia.
    rewrite !Z.pow_succ_r by lia. lia.
  - rewrite Pos2Z.inj_succ.
    replace (Z.succ (Zpos (digits2_pos m)) - 1) with (Z.succ (Zpos (digits2_pos m) - 1)) by lia.
    rewrite !Z.pow_succ_r by lia. lia.
  - simpl. lia.
Qed.

Lemma iter_pos_nat {A} (f : A -> A) p x :
  SpecFloat.iter_pos f p x = Nat.iter (Pos.to_nat p) f x.
Proof.
  revert x. induction p as [p IH|p IH|]; intros x; cbn [SpecFloat.iter_pos].
  - rewrite !IH, Pos2Nat.inj_xI. cbn [Nat.iter Nat.mul].
    by rewrite Nat.add_0_r, Nat.iter_succ_r, Nat.iter_add.
  - rewrite !IH, Pos2Nat.inj_xO. cbn [Nat.mul].
    by rewrite Nat.add_0_r, Nat.iter_add.
  - reflexivity.
Qed.

Lemma shifted_0 m : 0 <= m -> shifted m 0 (Build_shr_record m false false).
Proof. intros H. split; [done|]. exists 0. simpl. lia. Qed.

Lemma shifted_step m n q r s q1 b :
  0 <= n -> 0 <= q1 -> q = 2 * q1 + Z.b2z b ->
  shifted m n (Build_shr_record q r s) ->
  shifted m (n + 1) (Build_shr_record q1 b (r || s)).
Proof.
  intros Hn Hq1 Hq [_ (t & Ht & Hm & Hs)]. cbn [shr_m shr_r shr_s] in *.
  split; [done|]. exists (Z.b2z r * 2 ^ n + t).
  rewrite Z.pow_add_r, Z.pow_1_r by lia.
  assert (0 < 2 ^ n) by (apply Z.pow_pos_nonneg; lia).
  cbn [shr_m shr_r shr_s]. repeat split.
  - destruct r; simpl; lia.
  - destruct r; simpl; lia.
  - rewrite Hm, Hq. lia.
  - rewrite Hs. destruct r; simpl; [|done]. symmetry. apply Z.ltb_lt. lia.
Qed.

Lemma shifted_shr_1 m n mrs :
  0 <= n -> shifted m n mrs -> shifted m (n + 1) (shr_1 mrs).
Proof.
  intros Hn H. destruct mrs as [q r s].
  pose proof (proj1 H) as Hq. cbn [shr_m] in Hq.
  destruct q as [|[p|p|]|p]; cbn [shr_1]; try lia.
  - by apply (shifted_step m n 0 r s 0 false).
  - by apply (shifted_step m n (Zpos p~1) r s (Zpos p) true).
  - by apply (shifted_step m n (Zpos p~0) r s (Zpos p) false).
  - by apply (shifted_step m n 1 r s 0 true).
Qed.

Lemma shifted_iter m k :
  0 <= m ->
  shifted m (Z.of_nat k) (Nat.iter k shr_1 (Build_shr_record m false false)).
Proof.
  intros Hm. induction k as [|k IH].
  - by apply shifted_0.
  - rewrite Nat2Z.inj_succ, <- Z.add_1_r. cbn [Nat.iter].
    apply shifted_shr_1; [lia|done].
Qed.

(** [shr] by [n >= 0] bits. *)
Lemma shr_shifted m e n :
  0 <= m -> 0 <= n ->
  exists mrs, shr (Build_shr_record m false false) e n = (mrs, e + n) /\
              shifted m n mrs.
Proof.
  intros Hm Hn. destruct n as [|p|p]; [| |lia]; cbn [shr].
  - eexists. split; [by rewrite Z.add_0_r|]. by apply shifted_0.
  - eexists. split; [reflexivity|]. rewrite iter_pos_nat.
    rewrite <- (positive_nat_Z p). by apply shifted_iter.
Qed.

(** Rounding the shifted number to nearest, ties to even. *)
Lemma round_shifted m n mrs :
  0 <= n -> shifted m n mrs ->
  let q := round_nearest_even (shr_m mrs) (loc_of_shr_record mrs) in
  0 <= q /\
  - 2 ^ n <= 2 * (q * 2 ^ n - m) <= 2 ^ n /\
  (forall M, m <= M * 2 ^ n -> q <= M).
Proof.
  intros Hn [Hq (t & Ht & Hm & Hs)]. destruct mrs as [q r s].
  cbn [shr_m shr_r shr_s] in *.
  assert (0 < 2 ^ n) as Hp by (apply Z.pow_pos_nonneg; lia).
  assert (forall M, m <= M * 2 ^ n -> q <= M) as Hle.
  { intros M HM. destruct (Z_lt_le_dec M q) as [Hlt|]; [|done]. exfalso.
    assert ((M + 1) * 2 ^ n <= q * 2 ^ n) by (apply Z.mul_le_mono_nonneg_r; lia).
    destruct r; simpl in Hm; lia. }
  assert (forall M, m <= M * 2 ^ n -> q = M -> r = false /\ t = 0) as Heq.
  { intros M HM ->. destruct r; simpl in Hm; split; try done; lia. }
  destruct r, s; cbn [loc_of_shr_record round_nearest_even]; simpl Z.b2z in *;
    symmetry in Hs; rewrite ?Z.ltb_lt, ?Z.ltb_ge in Hs.
  - (* above the middle: up *)
    repeat split; try lia.
    intros M HM. pose proof (Hle M HM). destruct (Z.eq_dec q M) as [E|]; [|lia].
    by destruct (Heq M HM E).
  - (* the middle: to even *)
    assert (t = 0) as -> by lia.
    destruct (Z.even q); repeat split; try lia; [apply Hle|].
    intros M HM. pose proof (Hle M HM). destruct (Z.eq_dec q M) as [E|]; [|lia].
    by destruct (Heq M HM E).
  - repeat split; try lia. apply Hle.
  - repeat split; try lia. apply Hle.
Qed.

Lemma shr_fexp_exact prec emax m e :
  shr_fexp prec emax m e loc_Exact
  = shr (Build_shr_record m false false) e (fexp prec emax (Zdigits2 m + e) - e).
Proof. reflexivity. Qed.

Lemma shr_nonpos mrs e n : n <= 0 -> shr mrs e n = (mrs, e).
Proof. intros H. destruct n; [done|lia|done]. Qed.

Lemma digits2_le m k : Zpos m < 2 ^ k -> 0 <= k -> Zpos (digits2_pos m) <= k.
Proof.
  intros Hm Hk. pose proof (digits2_bounds m) as [Hlo _].
  destruct (Z_lt_le_dec k (Zpos (digits2_pos m))) as [Hlt|]; [|done].
  assert (2 ^ k <= 2 ^ (Zpos (digits2_pos m) - 1)) by (apply Z.pow_le_mono_r; lia).
  lia.
Qed.

(** Rounding [m * 2^e] to binary32 when its last place [fe] is not below
    [e] and the result does not overflow. *)
Lemma binary_round_32 s m e :
  let fe := fexp prec32 emax32 (Zpos (digits2_pos m) + e) in
  let n := fe - e in
  0 <= n ->
  fe + 1 <= 104 \/ (fe <= 104 /\ Zpos m <= (2 ^ 24 - 1) * 2 ^ n) ->
  exists q,
    0 <= q /\ - 2 ^ n <= 2 * (q * 2 ^ n - Zpos m) <= 2 ^ n /\
    ((q = 0 /\ binary_round prec32 emax32 s m e = S754_zero s) \/
     (exists mf ef,
        binary_round prec32 emax32 s m e = S754_finite s mf ef /\
        Zpos mf * 2 ^ (ef - fe) = q /\ fe <= ef <= 104 /\
        Zpos (digits2_pos mf) <= 24)).
Proof.
  intros fe n Hn Hov.
  assert (-149 <= fe /\ Zpos (digits2_pos m) + e - 24 <= fe) as [Hfe1 Hfe2].
  { unfold fe. rewrite fexp32_eq. lia. }
  unfold binary_round, shl_align. fold fe.
  replace (match fe - e with Z.neg d => (Pos.iter xO m d, fe) | _ => (m, e) end)
    with (m, e) by (fold n; by destruct n; [| |lia]).
  unfold binary_round_aux. rewrite shr_fexp_exact. cbn [Zdigits2]. fold fe. fold n.
  destruct (shr_shifted (Zpos m) e n) as (mrs & -> & Hsh); [lia|done|].
  destruct (round_shifted (Zpos m) n mrs Hn Hsh) as (Hq0 & Herr & Hup).
  set (q := round_nearest_even (shr_m mrs) (loc_of_shr_record mrs)) in *.
  exists q. split; [done|]. split; [done|].
  replace (e + n) with fe by (unfold n; lia).
  rewrite shr_fexp_exact.
  assert (q <= 2 ^ 24) as Hq24.
  { apply Hup. rewrite <- Z.pow_add_r by lia.
    pose proof (digits2_bounds m) as [_ Hd].
    assert (2 ^ Zpos (digits2_pos m) <= 2 ^ (24 + n))
      by (apply Z.pow_le_mono_r; unfold n; lia).
    lia. }
  destruct q as [|p|p] eqn:Eq; [| |lia].
  - left. split; [done|]. cbn [Zdigits2]. rewrite shr_nonpos; [done|].
    rewrite fexp32_eq. lia.
  - right. cbn [Zdigits2].
    destruct (Z.eq_dec (Zpos p) (2 ^ 24)) as [E|NE].
    + (* the rounded significand has 25 digits: one more shift *)
      assert (fe + 1 <= 104) as Hfe.
      { destruct Hov as [|[_ Hm]]; [done|]. apply Hup in Hm. lia. }
      assert (p = 16777216%positive) as -> by lia.
      replace (fexp prec32 emax32 (Zpos (digits2_pos 16777216) + fe) - fe) with 1
        by (rewrite fexp32_eq; change (Zpos (digits2_pos 16777216)) with 25; lia).
      cbn [shr SpecFloat.iter_pos shr_1 shr_m].
      replace (fe + 1 <=? emax32 - prec32) with true
        by (symmetry; apply Z.leb_le; unfold emax32, prec32; lia).
      exists 8388608%positive, (fe + 1). split; [done|].
      replace (fe + 1 - fe) with 1 by lia. repeat split; try lia; done.
    + assert (Zpos (digits2_pos p) <= 24) as Hd by (apply digits2_le; lia).
      rewrite shr_nonpos by (rewrite fexp32_eq; lia). cbn [shr_m].
      assert (fe <= 104) as Hfe by lia.
      replace (fe <=? emax32 - prec32) with true
        by (symmetry; apply Z.leb_le; unfold emax32, prec32; lia).
      exists p, fe. split; [done|]. rewrite Z.sub_diag. repeat split; try lia.
Qed.

Lemma iter_xO_value m k : Zpos (Pos.iter xO m k) = Zpos m * 2 ^ Zpos k.
Proof.
  induction k as [|k IH] using Pos.peano_ind.
  - simpl. lia.
  - rewrite Pos.iter_succ, Pos2Z.inj_succ, Z.pow_succ_r by lia.
    rewrite Pos2Z.inj_xO, IH. lia.
Qed.

Lemma iter_xO_digits m k :
  Zpos (digits2_pos (Pos.iter xO m k)) = Zpos (digits2_pos m) + Zpos k.
Proof.
  induction k as [|k IH] using Pos.peano_ind.
  - simpl. lia.
  - rewrite Pos.iter_succ. cbn [digits2_pos]. rewrite !Pos2Z.inj_succ, IH. lia.
Qed.

(** Widening a binary32 value to binary64 is exact. *)
Lemma binary_round_64 s mf ef :
  Zpos (digits2_pos mf) <= 24 -> -149 <= ef <= 104 ->
  exists mz ez,
    binary_round prec64 emax64 s mf ef = S754_finite s mz ez /\
    ez <= ef /\ -1074 <= ez /\
    Zpos mz = Zpos mf * 2 ^ (ef - ez).
Proof.
  intros Hd He.
  assert (0 < Zpos (digits2_pos mf)) as Hd0 by lia.
  unfold binary_round, shl_align. rewrite fexp64_eq.
  replace (Z.max (Zpos (digits2_pos mf) + ef - 53) (-1074))
    with (Zpos (digits2_pos mf) + ef - 53) by lia.
  destruct (Zpos (digits2_pos mf) + ef - 53 - ef) as [|k|k] eqn:Ek; [lia|lia|].
  assert (Zpos k = 53 - Zpos (digits2_pos mf)) as Hk by lia.
  set (mz := Pos.iter xO mf k). set (ez := Zpos (digits2_pos mf) + ef - 53).
  assert (Zpos (digits2_pos mz) = 53) as Hdz
    by (unfold mz; rewrite iter_xO_digits; lia).
  unfold binary_round_aux. rewrite shr_fexp_exact. cbn [Zdigits2].
  rewrite Hdz, shr_nonpos by (rewrite fexp64_eq; unfold ez; lia).
  cbn [shr_m loc_of_shr_record round_nearest_even].
  rewrite shr_fexp_exact. cbn [Zdigits2].
  rewrite Hdz, shr_nonpos by (rewrite fexp64_eq; unfold ez; lia).
  cbn [shr_m].
  replace (ez <=? emax64 - prec64) with true
    by (symmetry; apply Z.leb_le; unfold emax64, prec64, ez; lia).
  exists mz, ez. split; [done|]. split; [unfold ez; lia|]. split; [unfold ez; lia|].
  unfold mz. rewrite iter_xO_value. do 2 f_equal. unfold ez. lia.
Qed.

Lemma valid_double_finite s m e :
  valid_double (S754_finite s m e) = true ->
  Zpos (digits2_pos m) <= 53 /\ -1074 <= e <= 971 /\
  (Zpos (digits2_pos m) = 53 \/ e = -1074).
Proof.
  unfold valid_double, valid_binary, bounded, canonical_mantissa.
  rewrite andb_true_iff, Z.eqb_eq, Z.leb_le, fexp64_eq.
  unfold emax64, prec64. lia.
Qed.

Lemma compare_cont_Eq_le m N :
  match PosDef.Pos.compare_cont Eq m N with Gt => false | _ => true end = true ->
  Zpos m <= Zpos N.
Proof.
  intros H. apply Pos2Z.pos_le_pos, Pos.compare_le_iff.
  intros E. unfold Pos.compare in E. rewrite E in H. discriminate H.
Qed.

Lemma below_FLT_MAX s m e :
  SFleb (SFabs (S754_finite s m e)) FLT_MAX = true ->
  e < 75 \/ (e = 75 /\ Zpos m <= (2 ^ 24 - 1) * 2 ^ 29).
Proof.
  unfold SFleb, SFabs, FLT_MAX, SFcompare.
  destruct (Z.compare_spec e 75) as [->| |]; [|lia|done].
  intros H. right. split; [done|].
  apply compare_cont_Eq_le in H.
  assert (Zpos ((2 ^ 24 - 1) * 2 ^ 29) = (2 ^ 24 - 1) * 2 ^ 29) as E1
    by (vm_compute; reflexivity).
  by rewrite <- E1.
Qed.

(** Half a unit in the last place of binary32, in units of [2^-1074]. *)
Lemma half_ulp_bound m q e n d :
  1 <= d -> 2 ^ (d - 1) <= m -> -1074 <= e -> 0 <= n ->
  n = Z.max (d + e - 24) (-149) - e ->
  - 2 ^ n <= 2 * (q * 2 ^ n - m) <= 2 ^ n ->
  2 ^ 24 * (Z.abs (q * 2 ^ n - m) * 2 ^ (e + 1074))
  <= Z.max (m * 2 ^ (e + 1074)) (2 ^ 948).
Proof.
  intros Hd Hm He Hn En Herr.
  set (X := 2 ^ (e + 1074)). set (D := Z.abs (q * 2 ^ n - m)).
  assert (0 < X) as HX by (apply Z.pow_pos_nonneg; lia).
  assert (0 <= D) as HD0 by apply Z.abs_nonneg.
  assert (2 * D <= 2 ^ n) as HD by (unfold D; lia).
  destruct (Z.max_spec (d + e - 24) (-149)) as [[Hlt Emax]|[Hle Emax]];
    rewrite Emax in En.
  - (* binary32 is subnormal here *)
    assert (2 ^ 24 * 2 ^ n * X = 2 * 2 ^ 948) as E.
    { unfold X. rewrite <- !Z.pow_add_r by lia.
      replace (24 + n + (e + 1074)) with (Z.succ 948) by lia.
      by rewrite Z.pow_succ_r. }
    assert (2 ^ 24 * (2 * D) * X <= 2 ^ 24 * 2 ^ n * X).
    { apply Z.mul_le_mono_nonneg_r; [lia|]. apply Z.mul_le_mono_nonneg_l; lia. }
    lia.
  - assert (2 ^ 24 * 2 ^ n = 2 * 2 ^ (d - 1)) as E.
    { rewrite <- Z.pow_add_r by lia.
      replace (24 + n) with (Z.succ (d - 1)) by lia.
      by rewrite Z.pow_succ_r by lia. }
    assert (2 ^ 24 * D <= m) as HDm.
    { assert (2 ^ 24 * (2 * D) <= 2 ^ 24 * 2 ^ n)
        by (apply Z.mul_le_mono_nonneg_l; lia).
      lia. }
    assert (2 ^ 24 * D * X <= m * X) by (apply Z.mul_le_mono_nonneg_r; lia).
    lia.
Qed.

Lemma cond_Zopp_diff s a b :
  Z.abs (cond_Zopp s a - cond_Zopp s b) = Z.abs (a - b).
Proof. destruct s; simpl; lia. Qed.

Lemma binary_normalize_finite prec emax s m e :
  binary_normalize prec emax (cond_Zopp s (Zpos m)) e s
  = binary_round prec emax s m e.
Proof. by destruct s. Qed.

Lemma round_trip_finite s m e :
  valid_double (S754_finite s m e) = true ->
  SFleb (SFabs (S754_finite s m e)) FLT_MAX = true ->
  within_float_rounding (S754_finite s m e)
    (float_to_double (double_to_float (S754_finite s m e))) = true.
Proof.
  intros Hv Hr.
  destruct (valid_double_finite _ _ _ Hv) as (Hd & He & Hcan).
  apply below_FLT_MAX in Hr.
  pose proof (digits2_bounds m) as [Hlo Hhi].
  set (d := Zpos (digits2_pos m)) in *.
  assert (1 <= d) as Hd1 by (unfold d; lia).
  unfold double_to_float, convert. rewrite binary_normalize_finite.
  pose proof (binary_round_32 s m e) as H32. cbn zeta in H32.
  fold d in H32. rewrite fexp32_eq in H32.
  set (n := Z.max (d + e - 24) (-149) - e) in *.
  assert (0 <= n) as Hn by (unfold n; lia).
  destruct H32 as (q & Hq0 & Herr & Hres); [done| |].
  { destruct Hr as [Hr|[-> Hm]]; [left; lia|right].
    assert (n = 29) as -> by (unfold n; lia). lia. }
  set (X := 2 ^ (e + 1074)).
  assert (0 < X) as HX by (apply Z.pow_pos_nonneg; lia).
  pose proof (half_ulp_bound (Zpos m) q e n d Hd1 Hlo ltac:(lia) Hn eq_refl Herr)
    as Hb.
  fold X in Hb.
  unfold within_float_rounding. cbn [units].
  replace (e <? -1074) with false by (symmetry; apply Z.ltb_ge; lia).
  fold X.
  assert (Z.abs (cond_Zopp s (Zpos m) * X) = Zpos m * X) as EA
    by (destruct s; simpl; lia).
  assert (forall b, b = q * 2 ^ n * X ->
            2 ^ 24 * Z.abs (cond_Zopp s b - cond_Zopp s (Zpos m) * X)
            <= Z.max (Z.abs (cond_Zopp s (Zpos m) * X)) (2 ^ 948)) as Hfin.
  { intros b ->. rewrite EA.
    replace (cond_Zopp s (Zpos m) * X) with (cond_Zopp s (Zpos m * X))
      by (by destruct s; simpl; lia).
    rewrite cond_Zopp_diff.
    replace (q * 2 ^ n * X - Zpos m * X) with ((q * 2 ^ n - Zpos m) * X) by lia.
    rewrite Z.abs_mul, (Z.abs_eq X) by lia. done. }
  destruct Hres as [[-> ->]|(mf & ef & -> & Hmf & Hef & Hdf)].
  - cbn [float_to_double convert units]. apply Z.leb_le.
    specialize (Hfin 0 ltac:(lia)). by destruct s.
  - unfold float_to_double, convert. rewrite binary_normalize_finite.
    destruct (binary_round_64 s mf ef Hdf) as (mz & ez & -> & Hez1 & Hez2 & Hmz);
      [lia|].
    cbn [units].
    replace (ez <? -1074) with false by (symmetry; apply Z.ltb_ge; lia).
    apply Z.leb_le.
    replace (cond_Zopp s (Zpos mz) * 2 ^ (ez + 1074))
      with (cond_Zopp s (Zpos mz * 2 ^ (ez + 1074))) by (by destruct s; simpl; lia).
    apply Hfin. rewrite Hmz, <- Hmf. unfold X.
    rewrite <- !Z.mul_assoc, <- !Z.pow_add_r by lia.
    do 2 f_equal. unfold n. lia.
Qed.

(** One slot: a double that is a number of magnitude at most [FLT_MAX]
    comes back within half a unit in the last place of a [float]. *)
Lemma round_trip_value v :
  float_range v = true ->
  within_float_rounding v (float_to_double (double_to_float v)) = true.
Proof.
  unfold float_range. rewrite andb_true_iff. intros [Hv Hr].
  destruct v as [s|s| |s m e]; try discriminate.
  - reflexivity.
  - by apply round_trip_finite.
Qed.

Local Open Scope nat_scope.

(** The two loops, one after the other, on six slots. *)
Lemma round_trip_spec angles0 v :
  length v = 6 ->
  round_trip angles0 v
  = Returns ((fun x => float_to_double (double_to_float x)) <$> v).
Proof.
  intros Hl. unfold round_trip, to_native, from_native.
  destruct (write_loop_all v angles0) as (a & Hw & Ha); [lia|].
  rewrite Hl in Hw, Ha. rewrite Hw. cbn [bind].
  change 6 with (length (replicate 6 quiet_NaN)) at 1.
  rewrite read_loop_all by (rewrite length_replicate; lia).
  rewrite length_replicate, Ha. f_equal.
  change (drop 6 (slots angles0)) with (@nil float). rewrite app_nil_r.
  rewrite <- list_fmap_compose.
  apply take_ge. by rewrite length_fmap, Hl.
Qed.

(** C7, as the code has it: for every six doubles that are numbers of
    magnitude at most [FLT_MAX] (zeros included), narrowing each to float
    and widening it back, in slot order, yields six doubles that equal
    them within single-precision rounding: slot by slot
    [|w - v| <= 2^-24 * |v|], or [|w - v| <= 2^-150] for the smallest. *)
Theorem round_trip_within_float_rounding (angles0 : KinovaAngles) (v : list double) :
  length v = 6 ->
  Forall (fun x => float_range x = true) v ->
  exists w,
    round_trip angles0 v = Returns w /\
    w = (fun x => float_to_double (double_to_float x)) <$> v /\
    Forall2 (fun x y => within_float_rounding x y = true) v w.
Proof.
  intros Hl Hv. eexists. split; [by apply round_trip_spec|]. split; [done|].
  apply Forall2_fmap_r, Forall_Forall2_diag.
  eapply Forall_impl; [exact Hv|]. intros x. apply round_trip_value.
Qed.

Lemma round_trip_within_float_rounding_witness :
  exists w,
    round_trip zero_angles six_commands = Returns w /\
    w = (fun x => float_to_double (double_to_float x)) <$> six_commands /\
    Forall2 (fun x y => within_float_rounding x y = true) six_commands w.
Proof.
  apply (round_trip_within_float_rounding zero_angles six_commands).
  - reflexivity.
  - repeat constructor.
Defined.

(** C7, as the claim has it, fails: [2^128] is a double, it is narrowed
    to the infinite float, and what comes back is not equal to it within
    any rounding. *)
Lemma round_trip_large_not_close :
  length large_commands = 6 /\
  Forall (fun x => valid_double x = true) large_commands /\
  round_trip zero_angles large_commands = Returns large_read_back /\
  within_float_rounding two_pow_128 (S754_infinity false) = false /\
  ~ Forall2 (fun x y => within_float_rounding x y = true)
      large_commands large_read_back.
Proof.
  split; [reflexivity|]. split; [repeat constructor|].
  split; [reflexivity|]. split; [reflexivity|].
  intros H. apply Forall2_cons_1 in H as [H _]. discriminate H.
Qed.

(** NaN, what both buffers hold after initialisation, comes back as NaN,
    and an infinity as itself. *)
Example round_trip_nan :
  float_to_double (double_to_float quiet_NaN) = quiet_NaN /\
  within_float_rounding quiet_NaN quiet_NaN = false /\
  forall s, float_to_double (double_to_float (S754_infinity s)) = S754_infinity s.
Proof. repeat split. Qed.

(** The tolerance is not met by a neighbour in double precision of the
    rounded value that is another float away. *)
Example within_float_rounding_examples :
  within_float_rounding d0_1 (float_to_double f0_1) = true /\
  within_float_rounding d0_1 (float_to_double (S754_finite false 13421774 (-27))) = false /\
  within_float_rounding d0_1 d0_2 = false.
Proof. repeat split. Qed.

(** The constants of the scenario are the doubles that the decimal
    literals denote (the hardware's binary64 numbers, decoded). *)
#[local] Set Warnings "-inexact-float".
Example scenario_literals :
  Prim2SF 0.1 = d0_1 /\ Prim2SF 0.2 = d0_2 /\ Prim2SF 0.3 = d0_3 /\
  Prim2SF 0.4 = d0_4 /\ Prim2SF 0.5 = d0_5 /\ Prim2SF 0.6 = d0_6 /\
  Prim2SF 0x1p128 = two_pow_128 /\
  Prim2SF 0x1.fffffep127 = FLT_MAX.
Proof. repeat split. Qed.

(** * Further properties of the methods *)

Local Open Scope nat_scope.

(** ** Initialisation again *)

(** X1: When the base class does not answer SUCCESS, [on_init] answers ERROR
    (also for FAILURE) and returns before the buffers are resized: both
    buffers and the Session Handle are what they were. *)
Theorem on_init_base_failure (base : CallbackReturn) (info : HardwareInfo)
    (this : OvisHWInterface) :
  base <> SUCCESS ->
  exists this',
    on_init base info this = (ERROR, this') /\
    hw_states_ this' = hw_states_ this /\
    hw_commands_ this' = hw_commands_ this /\
    comm this' = comm this.
Proof.
  intros Hb. destruct base; [done| |]; eexists; by repeat split.
Qed.

Lemma on_init_base_failure_witness :
  exists this',
    on_init FAILURE six_joints scenario_object = (ERROR, this') /\
    hw_states_ this' = hw_states_ scenario_object /\
    hw_commands_ this' = hw_commands_ scenario_object /\
    comm this' = comm scenario_object.
Proof. apply (on_init_base_failure FAILURE six_joints scenario_object). discriminate. Defined.

Lemma resize_lookup {A} (v : list A) n x i :
  i < n -> resize v n x !! i = Some (default x (v !! i)).
Proof.
  intros Hi. destruct (decide (i < length v)) as [Hv|Hv].
  - rewrite resize_lookup_old by done.
    destruct (lookup_lt_is_Some_2 v i Hv) as [y Hy]. by rewrite Hy.
  - unfold resize. rewrite lookup_app_r by (rewrite length_take; lia).
    rewrite (lookup_ge_None_2 v i) by lia. simpl.
    apply lookup_replicate_2. rewrite length_take. lia.
Qed.

(** X2: [on_init] on an object that was initialised before (or whose buffers
    hold anything): both buffers get one entry per joint, an entry that
    was there stays what it was, and only the entries that are new are the
    quiet NaN. The Session Handle is not touched. *)
Theorem on_init_resize_keeps_entries (info : HardwareInfo) (this : OvisHWInterface) :
  exists this',
    on_init SUCCESS info this = (SUCCESS, this') /\
    length (hw_states_ this') = length (joints info) /\
    length (hw_commands_ this') = length (joints info) /\
    comm this' = comm this /\
    forall i, i < length (joints info) ->
      hw_states_ this' !! i = Some (default quiet_NaN (hw_states_ this !! i)) /\
      hw_commands_ this' !! i = Some (default quiet_NaN (hw_commands_ this !! i)).
Proof.
  eexists. split; [reflexivity|]. cbn [hw_states_ hw_commands_ comm set_hw_commands
    set_hw_states set_info]. unfold joint_count. cbn [info_ set_hw_states set_info joints].
  rewrite !length_resize. repeat split; by apply resize_lookup.
Qed.

(** ** Every session is closed at most once *)

Lemma invoke_sessions c this lib this' lib' :
  invoke c this lib = Some (this', lib') ->
  sessions_of this' lib' ≡ₚ sessions_of this lib /\
  created lib' = created lib /\
  (forall s, comm this' = Some s -> comm this = Some s) /\
  (forall s, s ∈ closed lib' -> s ∈ closed lib \/ comm this = Some s /\ comm this' = None).
Proof.
  unfold sessions_of. intros Hc. destruct c; cbn [invoke] in Hc.
  - injection Hc as <- <-. rewrite on_init_comm. by repeat split; auto.
  - injection Hc as <- <-. by repeat split; auto.
  - by rewrite on_activate_undefined in Hc.
  - unfold on_deactivate in Hc. rewrite release_spec in Hc.
    injection Hc as <- <-. cbn [comm set_comm lost closed created].
    change (option_list None) with (@nil KinovaComm). rewrite app_nil_l.
    split; [apply Permutation_app_swap_app|]. split; [done|]. split; [done|].
    intros s Hs. apply elem_of_app in Hs as [Hs|Hs]; [right|by left].
    destruct (comm this) as [k|]; cbn [option_list] in Hs; [|by inversion Hs].
    apply list_elem_of_singleton in Hs. by subst.
  - destruct (read ans this lib) as [[[r o] l]| |] eqn:E; try discriminate.
    injection Hc as <- <-.
    destruct (read_keeps_rest _ _ _ _ _ _ E) as (_ & -> & _ & ->).
    by repeat split; auto.
  - destruct (write angles0 ans this lib) as [r| |] eqn:E; try discriminate.
    by destruct (write_never_returns _ _ _ _ _ E).
  - destruct (set_value this h v) as [o|] eqn:E; try discriminate.
    injection Hc as <- <-. rewrite (set_value_comm _ _ _ _ E). by repeat split; auto.
Qed.

(** X4: Starting from any object and library whose sessions (the one
    held, the lost ones, the closed ones) are pairwise distinct, after
    any calls that return, in any order: they are the same sessions as
    before and none was created, no session has been closed twice, and
    the handle, if it is not null, is the one it was and does not refer
    to a closed session. The only call that moves a session is
    [on_deactivate], which closes the held one once. *)
Theorem sessions_accounted (cs : list method) (this : OvisHWInterface) (lib : Library)
    (this' : OvisHWInterface) (lib' : Library) :
  invoke_all cs this lib = Some (this', lib') ->
  NoDup (sessions_of this lib) ->
  sessions_of this' lib' ≡ₚ sessions_of this lib /\
  created lib' = created lib /\
  NoDup (closed lib') /\
  forall s, comm this' = Some s -> comm this = Some s /\ (s ∉ closed lib').
Proof.
  intros Hrun Hnd.
  assert (sessions_of this' lib' ≡ₚ sessions_of this lib /\
          created lib' = created lib /\
          (forall s, comm this' = Some s -> comm this = Some s)) as (Hp & Hcr & Hh).
  { clear Hnd. revert this lib Hrun.
    induction cs as [|c cs IH]; intros this lib Hrun; cbn [invoke_all] in Hrun.
    - by injection Hrun as <- <-.
    - destruct (invoke c this lib) as [[o l]|] eqn:E; [|done].
      destruct (invoke_sessions _ _ _ _ _ E) as (Hp1 & Hc1 & Hh1 & _).
      destruct (IH _ _ Hrun) as (Hp2 & Hc2 & Hh2).
      split; [by rewrite Hp2|]. split; [by rewrite Hc2|]. auto. }
  split; [done|]. split; [done|].
  assert (NoDup (sessions_of this' lib')) as Hnd' by (by rewrite Hp).
  unfold sessions_of in Hnd'.
  apply NoDup_app in Hnd' as (_ & Hdisj & Hnd').
  apply NoDup_app in Hnd' as (_ & _ & Hcl). split; [done|].
  intros s Hs. split; [by apply Hh|].
  rewrite Hs in Hdisj. cbn [option_list] in Hdisj.
  assert (s ∈ [s]) as Hhere by constructor.
  specialize (Hdisj s Hhere). rewrite elem_of_app in Hdisj. tauto.
Qed.

Lemma sessions_accounted_witness :
  exists this' lib',
    invoke_all [call_read (get_throws "no answer"); call_on_deactivate;
                call_on_init SUCCESS six_joints; call_on_deactivate]
      scenario_object scenario_library = Some (this', lib') /\
    closed lib' = [0] /\ NoDup (closed lib').
Proof.
  eexists _, _. split; [reflexivity|]. split; [reflexivity|].
  refine (proj1 (proj2 (proj2 (sessions_accounted
    [call_read (get_throws "no answer"); call_on_deactivate;
     call_on_init SUCCESS six_joints; call_on_deactivate]
    scenario_object scenario_library _ _ eq_refl _)))).
  repeat constructor. intros H. inversion H.
Defined.

(** ** Handles stay valid *)

Lemma read_loop_length angles n : forall i hw hw',
  read_loop angles n i hw = Returns hw' -> length hw' = length hw.
Proof.
  induction n as [|n IH]; intros i hw hw'; cbn [read_loop].
  - by intros [= <-].
  - destruct (index angles i); cbn [bind]; try discriminate.
    unfold at_put. case_decide; cbn [bind]; try discriminate.
    intros Hr. apply IH in Hr. by rewrite length_insert in Hr.
Qed.

Lemma read_keeps_length ans this lib r this' lib' :
  read ans this lib = Returns (r, this', lib') ->
  length (hw_states_ this') = length (hw_states_ this).
Proof.
  unfold read. destruct (comm this); try discriminate.
  destruct ans; [|by intros [= <- <- <-]].
  destruct (read_loop _ _ _ _) eqn:E; cbn [bind]; try discriminate.
  intros [= <- <- <-]. cbn [hw_states_ set_hw_states]. by eapply read_loop_length.
Qed.

Lemma set_value_shape this h v this' :
  set_value this h v = Some this' ->
  info_ this' = info_ this /\
  length (hw_states_ this') = length (hw_states_ this) /\
  length (hw_commands_ this') = length (hw_commands_ this).
Proof.
  unfold set_value. case_decide; [|done]. intros [= <-].
  destruct (slot_buffer (value_ptr h));
    cbn [info_ hw_states_ hw_commands_ set_hw_states set_hw_commands];
    by rewrite length_insert.
Qed.

Lemma invoke_keeps_shape c this lib this' lib' :
  invoke c this lib = Some (this', lib') -> is_on_init c = false ->
  info_ this' = info_ this /\
  length (hw_states_ this') = length (hw_states_ this) /\
  length (hw_commands_ this') = length (hw_commands_ this).
Proof.
  intros Hc Hi. destruct c; cbn [invoke is_on_init] in *; try discriminate.
  - by injection Hc as <- <-.
  - unfold on_deactivate in Hc. rewrite release_spec in Hc. by injection Hc as <- <-.
  - destruct (read ans this lib) as [[[r o] l]| |] eqn:E; try discriminate.
    injection Hc as <- <-.
    destruct (read_keeps_rest _ _ _ _ _ _ E) as (-> & _ & -> & _).
    by rewrite (read_keeps_length _ _ _ _ _ _ E).
  - destruct (write angles0 ans this lib) as [r| |] eqn:E; try discriminate.
    by destruct (write_never_returns _ _ _ _ _ E).
  - destruct (set_value this h v) as [o|] eqn:E; try discriminate.
    injection Hc as <- <-. by apply set_value_shape in E.
Qed.

Lemma get_value_is_Some this h :
  is_Some (get_value this h)
  <-> slot_index (value_ptr h) < length (buffer_of this (slot_buffer (value_ptr h))).
Proof. unfold get_value. apply lookup_lt_is_Some. Qed.

(** X6: Only [on_init] changes the joint set or the size of a buffer: after
    any calls of the other methods, in any order, the joint set and the
    lengths of both buffers are what they were, the export methods return
    the same handles, and every handle that had a value behind it still
    has one. *)
Theorem handles_stay_valid (cs : list method) (this : OvisHWInterface) (lib : Library)
    (this' : OvisHWInterface) (lib' : Library) :
  invoke_all cs this lib = Some (this', lib') ->
  Forall (fun c => is_on_init c = false) cs ->
  info_ this' = info_ this /\
  length (hw_states_ this') = length (hw_states_ this) /\
  length (hw_commands_ this') = length (hw_commands_ this) /\
  export_state_interfaces this' = export_state_interfaces this /\
  export_command_interfaces this' = export_command_interfaces this /\
  forall h, is_Some (get_value this h) -> is_Some (get_value this' h).
Proof.
  intros Hrun Hcs.
  assert (info_ this' = info_ this /\
          length (hw_states_ this') = length (hw_states_ this) /\
          length (hw_commands_ this') = length (hw_commands_ this)) as (Hi & Hs & Hc).
  { revert this lib Hrun. induction Hcs as [|c cs Hc _ IH]; intros this lib Hrun;
      cbn [invoke_all] in Hrun.
    - by injection Hrun as <- <-.
    - destruct (invoke c this lib) as [[o l]|] eqn:E; [|done].
      destruct (invoke_keeps_shape _ _ _ _ _ E Hc) as (<- & <- & <-).
      by eapply IH. }
  unfold export_state_interfaces, export_command_interfaces. rewrite Hi.
  repeat split; try done.
  intros h. rewrite !get_value_is_Some.
  by destruct (slot_buffer (value_ptr h)); cbn [buffer_of]; rewrite ?Hs, ?Hc.
Qed.

Lemma handles_stay_valid_witness :
  export_state_interfaces scenario_object = export_state_interfaces scenario_object /\
  exists this' lib',
    invoke_all [call_read (get_throws "no answer");
                call_set_value (handle_of hw_commands 2 {| name := "actuator_3" |}) d0_5;
                call_on_deactivate] scenario_object scenario_library
    = Some (this', lib') /\
    length (hw_states_ this') = length (hw_states_ scenario_object).
Proof.
  split; [reflexivity|]. eexists _, _. split; [reflexivity|].
  refine (proj1 (proj2 (handles_stay_valid
    [call_read (get_throws "no answer");
     call_set_value (handle_of hw_commands 2 {| name := "actuator_3" |}) d0_5;
     call_on_deactivate] scenario_object scenario_library _ _ eq_refl _))).
  repeat constructor.
Defined.

(** ** What [write] sends *)

(** X7: With a session and a Command Buffer of one entry per joint, at most
    six, whatever the commands: [write] calls [setJointAngles] on the
    held session with a record whose first slots, one per joint, are the
    commands narrowed to float, and whose slots past the joint count are
    what the local record held before the loop, which the method never
    sets. After the call, whatever the library answers, [write] reads
    through [logger()] and has no defined behaviour. *)
Theorem write_sends_commands_and_leftover (this : OvisHWInterface) (lib : Library)
    (s : KinovaComm) (angles0 : KinovaAngles) (ans : set_answer) :
  comm this = Some s ->
  length (hw_commands_ this) = joint_count this ->
  joint_count this <= 6 ->
  exists a,
    setJointAngles_call angles0 this = Returns (s, a) /\
    (forall i, i < joint_count this ->
       slots a !! i = double_to_float <$> hw_commands_ this !! i) /\
    (forall i, joint_count this <= i -> slots a !! i = slots angles0 !! i) /\
    write angles0 ans this lib = Undefined.
Proof.
  intros Hc Hl H6.
  destruct (setJointAngles_call_spec this s angles0 Hc Hl H6) as (a & Ha & Hw).
  exists a. split; [exact Hw|].
  split; [|split; [|by eapply write_after_call]]; intros i Hi; rewrite Ha.
  - rewrite lookup_app_l by (rewrite length_fmap; lia). apply list_lookup_fmap.
  - rewrite lookup_app_r by (rewrite length_fmap; lia).
    rewrite length_fmap, lookup_drop, Hl. f_equal. lia.
Qed.

Lemma write_sends_commands_and_leftover_witness :
  exists a,
    setJointAngles_call zero_angles scenario_object = Returns (0, a) /\
    write zero_angles (set_throws "no answer") scenario_object scenario_library
    = Undefined.
Proof.
  destruct (write_sends_commands_and_leftover scenario_object scenario_library 0
              zero_angles (set_throws "no answer") eq_refl eq_refl)
    as (a & H1 & _ & _ & H2).
  - vm_compute. lia.
  - by exists a.
Defined.

(** ** Through the exported handles *)

(** X8: With a session, buffers of one entry per joint and at most six
    joints: after a [read] that obtained the angles, the value behind the
    state handle of joint [i] is the angle of actuator [i + 1], widened;
    the value behind every command handle is what it was. *)
Theorem read_shows_through_state_handles (this : OvisHWInterface) (lib : Library)
    (s : KinovaComm) (angles : KinovaAngles) :
  comm this = Some s ->
  length (hw_states_ this) = joint_count this ->
  joint_count this <= 6 ->
  exists this',
    read (got angles) this lib = Returns (OK, this', lib) /\
    (forall i h, export_state_interfaces this !! i = Some h ->
       exists x, slots angles !! i = Some x /\
                 get_value this' h = Some (float_to_double x)) /\
    (forall i h, export_command_interfaces this !! i = Some h ->
       get_value this' h = get_value this h).
Proof.
  intros Hc Hl H6. rewrite (read_returns this lib s (got angles) Hc Hl H6).
  eexists. split; [reflexivity|]. split; intros i h Hh.
  - unfold export_state_interfaces in Hh. rewrite export_lookup in Hh.
    destruct (joints (info_ this) !! i) as [j|] eqn:Hj; [|done].
    injection Hh as <-. apply lookup_lt_Some in Hj. fold (joint_count this) in Hj.
    destruct (lookup_lt_is_Some_2 (slots angles) i) as [x Hx];
      [rewrite slots_length; lia|].
    exists x. split; [done|]. unfold get_value.
    cbn [value_ptr handle_of slot_buffer slot_index buffer_of hw_states_ set_hw_states].
    rewrite lookup_take_lt by done. by rewrite list_lookup_fmap, Hx.
  - unfold export_command_interfaces in Hh. rewrite export_lookup in Hh.
    destruct (joints (info_ this) !! i) as [j|]; [|done]. by injection Hh as <-.
Qed.

Lemma read_shows_through_state_handles_witness :
  exists this',
    read (got zero_angles) scenario_object scenario_library
    = Returns (OK, this', scenario_library).
Proof.
  destruct (read_shows_through_state_handles scenario_object scenario_library 0
              zero_angles eq_refl eq_refl) as (this' & H & _).
  - vm_compute. lia.
  - by exists this'.
Defined.

(** X9: With a session and a Command Buffer of one entry per joint, at most
    six: a value stored through the command handle of joint [i] changes
    no state, and the next [write] calls [setJointAngles] with that
    value, narrowed to float, in slot [i] of the record, and with the
    other joints' commands in their slots as before. *)
Theorem command_reaches_the_device (this : OvisHWInterface)
    (s : KinovaComm) (i : nat) (h : CommandInterface) (v : double)
    (angles0 : KinovaAngles) :
  comm this = Some s ->
  length (hw_commands_ this) = joint_count this ->
  joint_count this <= 6 ->
  export_command_interfaces this !! i = Some h ->
  exists this1 a,
    set_value this h v = Some this1 /\
    hw_states_ this1 = hw_states_ this /\
    setJointAngles_call angles0 this1 = Returns (s, a) /\
    slots a !! i = Some (double_to_float v) /\
    (forall k, k <> i -> k < joint_count this ->
       slots a !! k = double_to_float <$> hw_commands_ this !! k).
Proof.
  intros Hc Hl H6 Hh.
  unfold export_command_interfaces in Hh. rewrite export_lookup in Hh.
  destruct (joints (info_ this) !! i) as [j|] eqn:Hj; [|done].
  injection Hh as <-. apply lookup_lt_Some in Hj. fold (joint_count this) in Hj.
  set (this1 := set_hw_commands this (<[i:=v]> (hw_commands_ this))).
  assert (comm this1 = Some s) as Hc1 by done.
  assert (length (hw_commands_ this1) = joint_count this1) as Hl1
    by (unfold this1; cbn [hw_commands_ set_hw_commands]; by rewrite length_insert).
  assert (joint_count this1 <= 6) as H61 by done.
  destruct (setJointAngles_call_spec this1 s angles0 Hc1 Hl1 H61) as (a & Ha & Hw).
  exists this1, a. split; [apply set_value_command; lia|].
  split; [done|]. split; [exact Hw|].
  change (joint_count this1) with (joint_count this) in Ha.
  cbn [hw_commands_ this1 set_hw_commands] in Ha. split.
  - rewrite Ha, lookup_app_l by (rewrite length_fmap, length_insert; lia).
    rewrite list_lookup_fmap, list_lookup_insert_eq by lia. done.
  - intros k Hk HkN.
    rewrite Ha, lookup_app_l by (rewrite length_fmap, length_insert; lia).
    by rewrite list_lookup_fmap, list_lookup_insert_ne.
Qed.

Lemma command_reaches_the_device_witness :
  exists this1 a,
    set_value scenario_object (handle_of hw_commands 2 {| name := "actuator_3" |}) d0_5
    = Some this1 /\
    setJointAngles_call zero_angles this1 = Returns (0, a) /\
    slots a !! 2 = Some (double_to_float d0_5).
Proof.
  destruct (command_reaches_the_device scenario_object 0 2
              (handle_of hw_commands 2 {| name := "actuator_3" |}) d0_5
              zero_angles eq_refl eq_refl)
    as (this1 & a & H1 & _ & H2 & H3 & _).
  - vm_compute. lia.
  - reflexivity.
  - by exists this1, a.
Defined.

(** ** Exceptions that escape *)

Lemma read_loop_short angles n : forall i hw,
  i <= length hw -> length hw < i + n -> i + n <= 6 ->
  read_loop angles n i hw = Throws out_of_range.
Proof.
  induction n as [|n IH]; intros i hw Hi Hl H6; [lia|]. cbn [read_loop].
  destruct (lookup_lt_is_Some_2 (slots angles) i) as [x Hx];
    [rewrite slots_length; lia|].
  rewrite (index_in _ _ _ Hx). cbn [bind]. unfold at_put. case_decide; cbn [bind].
  - apply IH; rewrite ?length_insert; lia.
  - done.
Qed.

Lemma write_loop_short hw n : forall i angles,
  i <= length hw -> length hw < i + n -> i + n <= 6 ->
  write_loop hw n i angles = Throws out_of_range.
Proof.
  induction n as [|n IH]; intros i angles Hi Hl H6; [lia|]. cbn [write_loop].
  unfold at_. destruct (hw !! i) as [x|] eqn:Hx; cbn [bind]; [|done].
  apply lookup_lt_Some in Hx.
  destruct (index_put_in angles i (double_to_float x)) as (a' & -> & _); [lia|].
  cbn [bind]. apply IH; lia.
Qed.

(** X10: The loops of [read] and [write] stand outside the handlers, which
    catch the library's exception only. With at most six joints: when the
    State Buffer has fewer entries than there are joints, a [read] that
    obtained the angles lets [std::out_of_range] escape instead of
    answering; when the Command Buffer has fewer entries than there are
    joints, [write] lets it escape before the session is used, with or
    without a session. *)
Theorem short_buffer_throws_out_of_range (this : OvisHWInterface) (lib : Library) :
  joint_count this <= 6 ->
  (forall s angles,
     comm this = Some s -> length (hw_states_ this) < joint_count this ->
     read (got angles) this lib = Throws out_of_range) /\
  (forall angles0 ans,
     length (hw_commands_ this) < joint_count this ->
     write angles0 ans this lib = Throws out_of_range).
Proof.
  intros H6. split.
  - intros s angles Hc Hl. unfold read. rewrite Hc.
    by rewrite read_loop_short by lia.
  - intros angles0 ans Hl. unfold write, setJointAngles_call.
    by rewrite write_loop_short by lia.
Qed.

Lemma short_buffer_throws_out_of_range_witness :
  read (got zero_angles)
    {| info_ := six_joints; hw_states_ := []; hw_commands_ := []; comm := Some 0 |}
    fresh_library = Throws out_of_range.
Proof.
  refine (proj1 (short_buffer_throws_out_of_range
    {| info_ := six_joints; hw_states_ := []; hw_commands_ := []; comm := Some 0 |}
    fresh_library _) 0 zero_angles eq_refl _); vm_compute; lia.
Defined.

(** ** The casts *)

Local Open Scope Z_scope.

Lemma shr_1_nonneg mrs : 0 <= shr_m mrs -> 0 <= shr_m (shr_1 mrs).
Proof.
  destruct mrs as [q r s]. cbn [shr_m]. intros Hq.
  destruct q as [|[p|p|]|p]; cbn [shr_1 shr_m]; lia.
Qed.

Lemma shr_nonneg mrs e n : 0 <= shr_m mrs -> 0 <= shr_m (fst (shr mrs e n)).
Proof.
  intros Hq. destruct n as [|p|p]; cbn [shr fst]; try done.
  rewrite iter_pos_nat. induction (Pos.to_nat p) as [|k IH]; [done|].
  cbn [Nat.iter]. by apply shr_1_nonneg.
Qed.

Lemma round_nearest_even_nonneg m l : 0 <= m -> 0 <= round_nearest_even m l.
Proof.
  intros Hm. destruct l as [|[]]; cbn [round_nearest_even]; try lia.
  destruct (Z.even m); lia.
Qed.

(** Rounding a positive significand yields a zero, a finite number or an
    infinity of the given sign, never NaN. *)
Lemma binary_round_aux_sign prec emax s mx ex lx :
  0 <= mx -> sign_of (binary_round_aux prec emax s mx ex lx) = Some s.
Proof.
  intros Hmx. unfold binary_round_aux, shr_fexp.
  pose proof (shr_nonneg (shr_record_of_loc mx lx) ex
                (fexp prec emax (Zdigits2 mx + ex) - ex)) as H1.
  destruct (shr _ ex _) as [mrs' e']. cbn [fst] in H1.
  assert (0 <= shr_m mrs') as Hq1
    by (apply H1; by destruct lx as [|[]]).
  pose proof (round_nearest_even_nonneg (shr_m mrs') (loc_of_shr_record mrs') Hq1) as Hq2.
  set (q := round_nearest_even (shr_m mrs') (loc_of_shr_record mrs')) in *.
  pose proof (shr_nonneg (shr_record_of_loc q loc_Exact) e'
                (fexp prec emax (Zdigits2 q + e') - e') Hq2) as H3.
  destruct (shr _ e' _) as [mrs'' e'']. cbn [fst] in H3.
  destruct (shr_m mrs'') as [|p|p]; [done| |lia].
  by destruct (e'' <=? emax - prec).
Qed.

Lemma convert_sign prec emax x : sign_of (convert prec emax x) = sign_of x.
Proof.
  destruct x as [s|s| |s m e]; try done.
  unfold convert. rewrite binary_normalize_finite. unfold binary_round.
  destruct (shl_align m e _) as [mz ez]. by apply binary_round_aux_sign.
Qed.

Lemma sign_of_is_nan x y : sign_of x = sign_of y -> is_nan x = is_nan y.
Proof. by destruct x, y. Qed.

Local Open Scope nat_scope.

(** X11: With a session and a Command Buffer of one entry per joint, at most
    six: the record that [write] calls [setJointAngles] with holds NaN in
    the slot of a joint exactly when the command of that joint is NaN,
    and otherwise a zero, a finite number or an infinity of the command's
    sign. The widening cast of [read] keeps NaN and the sign in the same
    way. *)
Theorem write_keeps_sign_and_nan (this : OvisHWInterface)
    (s : KinovaComm) (angles0 : KinovaAngles) :
  comm this = Some s ->
  length (hw_commands_ this) = joint_count this ->
  joint_count this <= 6 ->
  (exists a,
     setJointAngles_call angles0 this = Returns (s, a) /\
     forall (i : nat) (x : double), hw_commands_ this !! i = Some x ->
       exists f : float, slots a !! i = Some f /\
                 sign_of f = sign_of x /\ is_nan f = is_nan x) /\
  (forall f : float, sign_of (float_to_double f) = sign_of f /\
                     is_nan (float_to_double f) = is_nan f).
Proof.
  intros Hc Hl H6. split.
  - destruct (setJointAngles_call_spec this s angles0 Hc Hl H6) as (a & Ha & Hw).
    exists a. split; [exact Hw|].
    intros i x Hx. exists (double_to_float x). rewrite Ha.
    rewrite lookup_app_l
      by (rewrite length_fmap; by apply lookup_lt_Some in Hx).
    rewrite list_lookup_fmap, Hx.
    pose proof (convert_sign prec32 emax32 x) as Hsgn.
    split; [done|]. split; [done|]. by apply sign_of_is_nan.
  - intros f. pose proof (convert_sign prec64 emax64 f) as Hsgn.
    split; [done|]. by apply sign_of_is_nan.
Qed.

Lemma write_keeps_sign_and_nan_witness :
  exists a,
    setJointAngles_call zero_angles object_with_session = Returns (0, a) /\
    forall (i : nat) (x : double), hw_commands_ object_with_session !! i = Some x ->
      exists f : float, slots a !! i = Some f /\
                sign_of f = sign_of x /\ is_nan f = is_nan x.
Proof.
  refine (proj1 (write_keeps_sign_and_nan object_with_session 0 zero_angles
                   eq_refl eq_refl _)).
  vm_compute. lia.
Defined.

Local Open Scope Z_scope.

Lemma valid_float_finite s m e :
  valid_float (S754_finite s m e) = true ->
  Zpos (digits2_pos m) <= 24 /\ -149 <= e <= 104 /\
  fexp prec32 emax32 (Zpos (digits2_pos m) + e) = e.
Proof.
  unfold valid_float, valid_binary, bounded, canonical_mantissa.
  rewrite andb_true_iff, Z.eqb_eq, Z.leb_le, fexp32_eq.
  unfold emax32, prec32. lia.
Qed.

(** The double that a float of the format is widened to: the significand
    is shifted left to 53 digits. *)
Lemma binary_round_64_shape s mf ef :
  Zpos (digits2_pos mf) <= 24 -> -149 <= ef <= 104 ->
  exists k,
    Zpos k = 53 - Zpos (digits2_pos mf) /\
    binary_round prec64 emax64 s mf ef
    = S754_finite s (Pos.iter xO mf k) (ef - Zpos k).
Proof.
  intros Hd He.
  assert (0 < Zpos (digits2_pos mf)) as Hd0 by lia.
  unfold binary_round, shl_align. rewrite fexp64_eq.
  replace (Z.max (Zpos (digits2_pos mf) + ef - 53) (-1074))
    with (Zpos (digits2_pos mf) + ef - 53) by lia.
  destruct (Zpos (digits2_pos mf) + ef - 53 - ef) as [|k|k] eqn:Ek; [lia|lia|].
  assert (Zpos k = 53 - Zpos (digits2_pos mf)) as Hk by lia.
  exists k. split; [done|].
  replace (Zpos (digits2_pos mf) + ef - 53) with (ef - Zpos k) by lia.
  set (mz := Pos.iter xO mf k). set (ez := ef - Zpos k).
  assert (Zpos (digits2_pos mz) = 53) as Hdz
    by (unfold mz; rewrite iter_xO_digits; lia).
  unfold binary_round_aux. rewrite shr_fexp_exact. cbn [Zdigits2].
  rewrite Hdz, shr_nonpos by (rewrite fexp64_eq; unfold ez; lia).
  cbn [shr_m loc_of_shr_record round_nearest_even].
  rewrite shr_fexp_exact. cbn [Zdigits2].
  rewrite Hdz, shr_nonpos by (rewrite fexp64_eq; unfold ez; lia).
  cbn [shr_m].
  by replace (ez <=? emax64 - prec64) with true
    by (symmetry; apply Z.leb_le; unfold emax64, prec64, ez; lia).
Qed.

(** Shifting out [n] zero bits loses nothing. *)
Lemma shifted_exact mf n mrs :
  0 <= n -> shifted (mf * 2 ^ n) n mrs -> mrs = Build_shr_record mf false false.
Proof.
  intros Hn [Hq (t & Ht & Hm & Hs)]. destruct mrs as [q r s].
  cbn [shr_m shr_r shr_s] in *.
  assert (0 < 2 ^ n) as Hp by (apply Z.pow_pos_nonneg; lia).
  assert ((2 * mf - 2 * q - Z.b2z r) * 2 ^ n = t) as Ek by lia.
  assert (2 * mf - 2 * q - Z.b2z r = 0) as E0 by nia.
  assert (t = 0) as -> by (rewrite E0 in Ek; lia).
  destruct r; simpl in E0; [lia|]. f_equal; [lia|done].
Qed.

(** A float of the format, widened to double and narrowed again, is the
    float it was, and the double in between is of the format. *)
Lemma float_widen_narrow (f : float) :
  valid_float f = true ->
  valid_double (float_to_double f) = true /\
  double_to_float (float_to_double f) = f.
Proof.
  intros Hv. destruct f as [s|s| |s mf ef]; try done.
  destruct (valid_float_finite _ _ _ Hv) as (Hd & He & Hcan).
  destruct (binary_round_64_shape s mf ef Hd He) as (k & Hk & Hw).
  assert (float_to_double (S754_finite s mf ef)
          = S754_finite s (Pos.iter xO mf k) (ef - Zpos k)) as ->
    by (unfold float_to_double, convert; by rewrite binary_normalize_finite).
  set (mz := Pos.iter xO mf k). set (ez := ef - Zpos k).
  assert (Zpos (digits2_pos mz) = 53) as Hdz
    by (unfold mz; rewrite iter_xO_digits; lia).
  split.
  - unfold valid_double, valid_binary, bounded, canonical_mantissa.
    rewrite Hdz, fexp64_eq, andb_true_iff, Z.eqb_eq, Z.leb_le.
    unfold emax64, prec64, ez. lia.
  - unfold double_to_float, convert. rewrite binary_normalize_finite.
    assert (fexp prec32 emax32 (Zpos (digits2_pos mz) + ez) = ef) as Hfe.
    { rewrite Hdz. replace (53 + ez) with (Zpos (digits2_pos mf) + ef)
        by (unfold ez; lia). exact Hcan. }
    unfold binary_round, shl_align. rewrite Hfe.
    replace (ef - ez) with (Zpos k) by (unfold ez; lia).
    unfold binary_round_aux. rewrite shr_fexp_exact. cbn [Zdigits2]. rewrite Hfe.
    replace (ef - ez) with (Zpos k) by (unfold ez; lia).
    destruct (shr_shifted (Zpos mz) ez (Zpos k)) as (mrs & -> & Hsh); [lia|lia|].
    unfold mz in Hsh. rewrite iter_xO_value in Hsh.
    apply shifted_exact in Hsh; [|lia]. subst mrs.
    cbn [shr_m loc_of_shr_record round_nearest_even].
    rewrite shr_fexp_exact. cbn [Zdigits2].
    replace (ez + Zpos k) with ef by (unfold ez; lia).
    rewrite Hcan, Z.sub_diag. cbn [shr shr_m].
    by replace (ef <=? emax32 - prec32) with true
      by (symmetry; apply Z.leb_le; unfold emax32, prec32; lia).
Qed.

Local Open Scope nat_scope.

(** X12: The loop of [read] followed by the loop of [write], on six slots: a
    record of floats of the format, none of them NaN, that is widened
    into a buffer and narrowed back into a record is the record it was,
    slot by slot (sign, significand and exponent), so an angle that was
    read and is commanded back is handed to the device as it was read;
    and every double in between is of the format and is not NaN. *)
Theorem angles_survive_read_then_write (a : KinovaAngles) (angles0 : KinovaAngles) :
  valid_angles a ->
  from_native a = Returns (float_to_double <$> slots a) /\
  to_native angles0 (float_to_double <$> slots a) = Returns a /\
  Forall (fun d => valid_double d = true /\ is_nan d = false)
    (float_to_double <$> slots a).
Proof.
  intros Hv. unfold valid_angles in Hv.
  assert (from_native a = Returns (float_to_double <$> slots a)) as Hfrom.
  { unfold from_native.
    change 6 with (length (replicate 6 quiet_NaN)) at 1.
    rewrite read_loop_all by (rewrite length_replicate; lia).
    by rewrite length_replicate. }
  split; [done|]. split.
  - unfold to_native.
    destruct (write_loop_all (float_to_double <$> slots a) angles0) as (b & Hw & Hb);
      [by rewrite length_fmap, slots_length|].
    rewrite length_fmap, slots_length in Hw, Hb. rewrite Hw. f_equal.
    apply slots_inj. rewrite Hb.
    change (drop 6 (slots angles0)) with (@nil float). rewrite app_nil_r.
    rewrite <- list_fmap_compose. rewrite <- (list_fmap_id (slots a)) at 2.
    apply Forall_fmap_ext. eapply Forall_impl; [exact Hv|].
    intros f [Hf _]. by apply float_widen_narrow.
  - apply Forall_fmap. eapply Forall_impl; [exact Hv|].
    intros f [Hf Hn]. split; [by apply float_widen_narrow|].
    pose proof (convert_sign prec64 emax64 f) as Hsgn.
    by rewrite <- Hn; apply sign_of_is_nan.
Qed.

Lemma angles_survive_read_then_write_witness :
  to_native zero_angles (float_to_double <$> [f0_1; f0_2; f0_3; f0_4; f0_5; f0_6])
  = Returns {| Actuator1 := f0_1; Actuator2 := f0_2; Actuator3 := f0_3;
               Actuator4 := f0_4; Actuator5 := f0_5; Actuator6 := f0_6 |}.
Proof.
  refine (proj1 (proj2 (angles_survive_read_then_write
    {| Actuator1 := f0_1; Actuator2 := f0_2; Actuator3 := f0_3;
       Actuator4 := f0_4; Actuator5 := f0_5; Actuator6 := f0_6 |} zero_angles _))).
  repeat constructor.
Defined.

Local Open Scope Z_scope.

Lemma above_two_pow_128 s m e :
  SFleb two_pow_128 (SFabs (S754_finite s m e)) = true -> 76 <= e.
Proof.
  unfold SFleb, SFabs, two_pow_128, SFcompare.
  destruct (Z.compare_spec 76 e); [lia|lia|done].
Qed.

(** Rounding to binary32 a double of 53 digits whose exponent is 76 or
    more: an infinity. *)
Lemma binary_round_32_overflow s m e :
  Zpos (digits2_pos m) = 53 -> 76 <= e ->
  binary_round prec32 emax32 s m e = S754_infinity s.
Proof.
  intros Hd He.
  pose proof (digits2_bounds m) as [Hlo Hhi]. rewrite Hd in Hlo, Hhi.
  assert (fexp prec32 emax32 (Zpos (digits2_pos m) + e) = e + 29) as Hfe
    by (rewrite Hd, fexp32_eq; lia).
  unfold binary_round, shl_align. rewrite Hfe.
  replace (e + 29 - e) with 29 by lia.
  unfold binary_round_aux. rewrite shr_fexp_exact. cbn [Zdigits2]. rewrite Hfe.
  replace (e + 29 - e) with 29 by lia.
  destruct (shr_shifted (Zpos m) e 29) as (mrs & -> & Hsh); [lia|lia|].
  destruct (round_shifted (Zpos m) 29 mrs ltac:(lia) Hsh) as (Hq0 & Herr & Hup).
  set (q := round_nearest_even (shr_m mrs) (loc_of_shr_record mrs)) in *.
  assert (q <= 2 ^ 24) as Hq24.
  { apply Hup. rewrite <- Z.pow_add_r by lia. simpl (24 + 29). lia. }
  assert (0 < q) as Hqpos.
  { destruct (Z_lt_le_dec 0 q) as [|Hle]; [done|]. exfalso.
    assert (q = 0) as E by lia. rewrite E in Herr.
    change (2 ^ (53 - 1)) with (2 ^ 23 * 2 ^ 29) in Hlo.
    assert (0 < 2 ^ 29) by lia. nia. }
  rewrite shr_fexp_exact.
  destruct q as [|p|p] eqn:Eq; [lia| |lia]. cbn [Zdigits2].
  destruct (Z.eq_dec (Zpos p) (2 ^ 24)) as [E|NE].
  - assert (p = 16777216%positive) as -> by lia.
    replace (fexp prec32 emax32 (Zpos (digits2_pos 16777216) + (e + 29)) - (e + 29))
      with 1
      by (rewrite fexp32_eq; change (Zpos (digits2_pos 16777216)) with 25; lia).
    cbn [shr SpecFloat.iter_pos shr_1 shr_m].
    by replace (e + 29 + 1 <=? emax32 - prec32) with false
      by (symmetry; apply Z.leb_gt; unfold emax32, prec32; lia).
  - assert (Zpos (digits2_pos p) <= 24) as Hdp by (apply digits2_le; lia).
    rewrite shr_nonpos by (rewrite fexp32_eq; lia). cbn [shr_m].
    by replace (e + 29 <=? emax32 - prec32) with false
      by (symmetry; apply Z.leb_gt; unfold emax32, prec32; lia).
Qed.

(** X13: The narrowing cast of [write] has no upper bound to respect: a double
    of the format whose magnitude is [2^128] or more is narrowed to the
    infinity of its sign, which is what the record then holds. *)
Theorem large_command_becomes_infinite (s : bool) (m : positive) (e : Z) :
  valid_double (S754_finite s m e) = true ->
  SFleb two_pow_128 (SFabs (S754_finite s m e)) = true ->
  double_to_float (S754_finite s m e) = S754_infinity s /\
  float_to_double (double_to_float (S754_finite s m e)) = S754_infinity s /\
  within_float_rounding (S754_finite s m e)
    (float_to_double (double_to_float (S754_finite s m e))) = false.
Proof.
  intros Hv Hr. destruct (valid_double_finite _ _ _ Hv) as (Hd & He & Hcan).
  apply above_two_pow_128 in Hr.
  assert (double_to_float (S754_finite s m e) = S754_infinity s) as ->.
  { unfold double_to_float, convert. rewrite binary_normalize_finite.
    apply binary_round_32_overflow; lia. }
  split; [done|]. split; [done|].
  unfold within_float_rounding. cbn [float_to_double convert units].
  by destruct (e <? -1074).
Qed.

Lemma large_command_becomes_infinite_witness :
  double_to_float two_pow_128 = S754_infinity false.
Proof.
  exact (proj1 (large_command_becomes_infinite false (2 ^ 52) 76 eq_refl eq_refl)).
Defined.

Local Open Scope nat_scope.

(** ** The exported pointers *)

Lemma export_pointers b js :
  value_ptr <$> export_loop b js 0 []
  = (fun k => {| slot_buffer := b; slot_index := k |}) <$> seq 0 (length js).
Proof.
  rewrite export_loop_spec, app_nil_l, fmap_imap, <- imap_seq_0.
  by apply imap_ext.
Qed.

(** X14: When both buffers hold one entry per joint, as [on_init] leaves
    them: every exported handle points to an entry of its own buffer (the
    state handles into the State Buffer, the command handles into the
    Command Buffer) with a value behind it, and no two of the handles
    point to the same entry. *)
Theorem exported_handles_do_not_alias (this : OvisHWInterface) :
  length (hw_states_ this) = joint_count this ->
  length (hw_commands_ this) = joint_count this ->
  NoDup (value_ptr <$> (export_state_interfaces this ++ export_command_interfaces this)) /\
  Forall (fun h => slot_buffer (value_ptr h) = hw_states /\ is_Some (get_value this h))
    (export_state_interfaces this) /\
  Forall (fun h => slot_buffer (value_ptr h) = hw_commands /\ is_Some (get_value this h))
    (export_command_interfaces this).
Proof.
  intros Hs Hc.
  unfold export_state_interfaces, export_command_interfaces.
  assert (forall b, length (buffer_of this b) = joint_count this ->
            Forall (fun h => slot_buffer (value_ptr h) = b /\ is_Some (get_value this h))
              (export_loop b (joints (info_ this)) 0 [])) as Hbuf.
  { intros b Hb. apply Forall_lookup. intros i h Hh.
    rewrite export_lookup in Hh.
    destruct (joints (info_ this) !! i) eqn:Hj; [|done]. injection Hh as <-.
    split; [done|]. apply get_value_is_Some.
    cbn [value_ptr handle_of slot_buffer slot_index]. rewrite Hb.
    by apply lookup_lt_Some in Hj. }
  split; [|split; by apply Hbuf].
  rewrite fmap_app. apply NoDup_app. repeat split.
  - rewrite export_pointers. apply NoDup_fmap_2; [|apply NoDup_seq].
    by intros i j [=].
  - intros p Hps Hpc.
    apply list_elem_of_fmap in Hps as (hs & -> & Hps).
    apply list_elem_of_fmap in Hpc as (hc & E & Hpc).
    pose proof (proj1 (Forall_forall _ _) (Hbuf hw_states Hs) _ Hps) as [E1 _].
    pose proof (proj1 (Forall_forall _ _) (Hbuf hw_commands Hc) _ Hpc) as [E2 _].
    rewrite E in E1. rewrite E1 in E2. discriminate E2.
  - rewrite export_pointers. apply NoDup_fmap_2; [|apply NoDup_seq].
    by intros i j [=].
Qed.

Lemma exported_handles_do_not_alias_witness :
  NoDup (value_ptr <$> (export_state_interfaces scenario_object
                          ++ export_command_interfaces scenario_object)).
Proof.
  exact (proj1 (exported_handles_do_not_alias scenario_object eq_refl eq_refl)).
Defined.
